(** * Permutations in disjoint-cycle notation: a model of [main.py]

    The development embeds the [Cycle] class of [main.py]:
    the sparse dictionary that stores the moved points, the constructor
    that strips fixed points, application, composition, inversion, the
    cycle-extraction loop, the two renderers and the parser of cycle text.

    Conventions of the embedding.
    - Python integers are [Z]; the interpreter's limit on the number of
      decimal digits in [int(str)] and [str(int)] is not modelled.
    - A Python [str] is a Rocq [string]; a character is a code point below
      256, so the white space of [str.strip] is the Latin-1 white space and
      the decimal digits of [int] are ["0"] to ["9"].
    - A Python [dict] is an association list in insertion order: updating
      an existing key keeps its position, a new key goes to the end.
    - A Python exception is the [Raise] outcome of the [result] type. *)

From Stdlib Require Import ZArith List Sorted String Ascii Bool Lia.
From Stdlib Require Import Numbers.DecimalString Numbers.DecimalZ.
Import ListNotations.

Local Open Scope string_scope.
Local Open Scope list_scope.
Local Open Scope Z_scope.

(** ** Outcomes of a Python call *)

Inductive exn : Type :=
| ValueError.

Inductive result (A : Type) : Type :=
| Ok (a : A)
| Raise (e : exn).

Arguments Ok {A} a.
Arguments Raise {A} e.

Definition bind {A B : Type} (r : result A) (k : A -> result B) : result B :=
  match r with
  | Ok a => k a
  | Raise e => Raise e
  end.

Notation "x <- r ;; k" := (bind r (fun x => k))
  (at level 61, r at next level, right associativity).

(** A list comprehension whose element expression may raise: the elements
    are evaluated left to right and the first exception escapes. *)
Fixpoint mapM {A B : Type} (f : A -> result B) (l : list A) : result (list B) :=
  match l with
  | [] => Ok []
  | a :: l' => b <- f a ;; bs <- mapM f l' ;; Ok (b :: bs)
  end.

(** ** Python built-ins on lists and integers *)

(** [range(lo, hi)] *)
Definition range (lo hi : Z) : list Z :=
  map (fun i => lo + Z.of_nat i) (seq 0 (Z.to_nat (hi - lo))).

(** [x in l] for a list of integers *)
Definition mem (x : Z) (l : list Z) : bool := existsb (Z.eqb x) l.

(** [l.remove(x)]: drops the first occurrence, [ValueError] when there is none. *)
Fixpoint list_remove (x : Z) (l : list Z) : result (list Z) :=
  match l with
  | [] => Raise ValueError
  | y :: l' => if x =? y then Ok l'
               else l'' <- list_remove x l' ;; Ok (y :: l'')
  end.

(** [max(l)] for a list: [ValueError] on the empty list. *)
Definition py_max (l : list Z) : result Z :=
  match l with
  | [] => Raise ValueError
  | x :: l' => Ok (fold_left Z.max l' x)
  end.

(** ** Python built-ins on strings *)

(** [str(n)] for an integer *)
Definition str (n : Z) : string := NilZero.string_of_int (Z.to_int n).

(** The characters that [str.strip] removes and [int] skips. *)
Definition is_space (c : ascii) : bool :=
  let n := nat_of_ascii c in
  ((9 <=? n) && (n <=? 13) || (28 <=? n) && (n <=? 32)
   || (n =? 133) || (n =? 160))%nat.

Fixpoint lstrip (s : string) : string :=
  match s with
  | EmptyString => EmptyString
  | String c s' => if is_space c then lstrip s' else s
  end.

Fixpoint rstrip (s : string) : string :=
  match s with
  | EmptyString => EmptyString
  | String c s' =>
      match rstrip s' with
      | EmptyString => if is_space c then EmptyString else String c EmptyString
      | r => String c r
      end
  end.

(** [s.strip()] *)
Definition strip_ws (s : string) : string := rstrip (lstrip s).

(** The digits of an [int] literal: decimal digits, with single
    underscores allowed between two digits. [prev] tells whether the
    previous character was a digit. *)
Fixpoint int_digits (prev : bool) (s : string) : option Decimal.uint :=
  match s with
  | EmptyString => if prev then Some Decimal.Nil else None
  | String c s' =>
      if Ascii.eqb c "_"
      then (if prev then int_digits false s' else None)
      else uint_of_char c (int_digits true s')
  end.

(** [int(s)] for a string: white space around the literal is skipped,
    one sign is accepted, anything else raises [ValueError]. The
    interpreter also raises [ValueError] on a literal of more than 4300
    digits; that limit is left out here, so the model is the function of
    the interpreter on strings of at most that length. *)
Definition int (s : string) : result Z :=
  match strip_ws s with
  | EmptyString => Raise ValueError
  | String c s' =>
      if Ascii.eqb c "-" then
        match int_digits false s' with
        | Some u => Ok (Z.of_int (Decimal.Neg u))
        | None => Raise ValueError
        end
      else if Ascii.eqb c "+" then
        match int_digits false s' with
        | Some u => Ok (Z.of_int (Decimal.Pos u))
        | None => Raise ValueError
        end
      else
        match int_digits false (String c s') with
        | Some u => Ok (Z.of_int (Decimal.Pos u))
        | None => Raise ValueError
        end
  end.

(** [s[1:-1]] *)
Fixpoint drop_last (s : string) : string :=
  match s with
  | EmptyString => EmptyString
  | String c EmptyString => EmptyString
  | String c s' => String c (drop_last s')
  end.

Definition slice_1_m1 (s : string) : string :=
  match s with
  | EmptyString => EmptyString
  | String _ s' => drop_last s'
  end.

(** [s.split(sep)] for a non-empty separator: the occurrences of [sep]
    are found left to right and do not overlap. [skip] counts the
    characters of a separator still to be passed over, [cur] is the piece
    read so far. *)
Fixpoint split_aux (sep : string) (skip : nat) (cur : string) (s : string)
  : list string :=
  match s with
  | EmptyString => [cur]
  | String c s' =>
      match skip with
      | S k => split_aux sep k cur s'
      | O =>
          if prefix sep s
          then cur :: split_aux sep (String.length sep - 1) EmptyString s'
          else split_aux sep 0 (cur ++ String c EmptyString)%string s'
      end
  end.

Definition split (sep s : string) : list string := split_aux sep 0 EmptyString s.

(** [sep.join(l)] *)
Definition join (sep : string) (l : list string) : string := String.concat sep l.

(** ** Dictionaries with integer keys and values *)

Module Dict.

Definition dict : Type := list (Z * Z).

Definition empty : dict := [].

(** [d.get(k)], [None] when the key is absent *)
Fixpoint get (k : Z) (d : dict) : option Z :=
  match d with
  | [] => None
  | (k', v) :: d' => if k =? k' then Some v else get k d'
  end.

(** [k in d.keys()] *)
Definition contains (k : Z) (d : dict) : bool :=
  match get k d with Some _ => true | None => false end.

(** [d[k] = v] *)
Fixpoint set (k v : Z) (d : dict) : dict :=
  match d with
  | [] => [(k, v)]
  | (k', v') :: d' => if k =? k' then (k', v) :: d' else (k', v') :: set k v d'
  end.

(** [d.pop(k)] for a key that is present *)
Definition pop (k : Z) (d : dict) : dict :=
  filter (fun kv => negb (k =? fst kv)) d.

(** [list(d.keys())] and [d.items()] *)
Definition keys (d : dict) : list Z := List.map fst d.
Definition items (d : dict) : list (Z * Z) := d.

(** The keys of a Python dictionary are pairwise distinct. *)
Definition wf (d : dict) : Prop := NoDup (keys d).

End Dict.

Import Dict.

(** ** The class [Cycle] *)

Module Cycle.

Record t : Type := mk { _map : dict; _dim : Z }.

(** The loop of [__init__]:
    [for key in keys: if mapping[key] == key: mapping.pop(key)].
    [keys] lists the keys of [mapping] once each and a key is popped at
    its own turn only, so [mapping[key]] always finds the key. *)
Definition strip_step (mapping : dict) (key : Z) : dict :=
  match get key mapping with
  | Some v => if v =? key then pop key mapping else mapping
  | None => mapping
  end.

Definition strip (mapping : dict) : dict :=
  fold_left strip_step (keys mapping) mapping.

Definition __init__ (mapping : option dict) (dimension : Z) : t :=
  match mapping with
  | None => mk empty dimension
  | Some m => mk (strip m) dimension
  end.

Definition get_dimension (self : t) : Z := _dim self.

(** [__call__]; the argument is an integer by typing, so the
    [isinstance] guard never fires. *)
Definition __call__ (self : t) (value : Z) : Z :=
  if negb (contains value (_map self)) then value
  else match get value (_map self) with Some v => v | None => value end.

(** [__mul__]: [to_check] is consumed from the front,
    [new_cycle[current] = self(cycle(current))]. *)
Definition mul_loop (self cycle : t) (to_check : list Z) (new_cycle : dict) : dict :=
  fold_left (fun d current => set current (__call__ self (__call__ cycle current)) d)
            to_check new_cycle.

Definition __mul__ (self cycle : t) : t :=
  let dim := Z.max (get_dimension self) (get_dimension cycle) in
  let to_check := range 1 (dim + 1) in
  let new_cycle := mul_loop self cycle to_check empty in
  __init__ (Some new_cycle) dim.

(** [generate_single_cycle]: after [seq.append(seq[0])],
    [while len(seq) >= 2: current = seq.pop(0); mapping[current] = seq[0]]. *)
Fixpoint single_loop (seq : list Z) (mapping : dict) : dict :=
  match seq with
  | current :: ((nxt :: _) as seq') => single_loop seq' (set current nxt mapping)
  | _ => mapping
  end.

Definition generate_single_cycle (cycle : list Z) : result t :=
  let seq := cycle in
  dim <- py_max seq ;;
  match seq with
  | [] => Raise ValueError
  | first :: _ =>
      let seq := seq ++ [first] in
      Ok (__init__ (Some (single_loop seq empty)) dim)
  end.

(** [inverse]: [{value: key for key, value in self._map.items()}] *)
Definition inverse (self : t) : t :=
  let new_mapping :=
    fold_left (fun d kv => set (snd kv) (fst kv) d) (items (_map self)) empty in
  __init__ (Some new_mapping) (get_dimension self).

(** The first loop of the parser [Cycle.Cycle]: the tokens of one
    bracketed piece, and the integer lists of the non-empty pieces. *)
Definition tokens_of (cycle : string) : list string :=
  map strip_ws
      (filter (fun x => negb (String.eqb (strip_ws x) EmptyString)) (split "," cycle)).

Fixpoint read_cycles (bracketed : list string) : result (list (list Z)) :=
  match bracketed with
  | [] => Ok []
  | cycle :: rest =>
      let tokens := tokens_of cycle in
      match tokens with
      | [] => read_cycles rest
      | _ => ints <- mapM int tokens ;;
             cycles <- read_cycles rest ;;
             Ok (ints :: cycles)
      end
  end.

(** The second loop: [cycles] is used as a stack whose top is its last
    element, so [front] is kept reversed, and [last] is the permutation
    on top:
    [last = cycles.pop(); second = generate_single_cycle(cycles.pop());
     cycles.append(second * last)]. *)
Fixpoint fold_loop (front : list (list Z)) (last : t) : result t :=
  match front with
  | [] => Ok last
  | c :: front' =>
      second <- generate_single_cycle c ;;
      fold_loop front' (__mul__ second last)
  end.

Definition Cycle (text : string) : result t :=
  let bracketed := split ")(" (slice_1_m1 text) in
  cycles <- read_cycles bracketed ;;
  match rev cycles with
  | [] => Ok (__init__ None 0)
  | c :: front =>
      last <- generate_single_cycle c ;;
      fold_loop front last
  end.

(** [_create_representation]. Both loops run on [to_check], which loses
    one element at each passage of the inner loop: [to_check.remove]
    either shortens it or raises. [n] is the length of [to_check], the
    recursion is on it; at [0] the list is empty and [remove] raises.
    The outer [while to_check] is the test on [to_check'] after a cycle
    is closed. *)
Fixpoint follow (f : Z -> Z) (n : nat) (to_check : list Z)
         (cycles : list (list Z)) (cycle : list Z) (current : Z)
  : result (list (list Z)) :=
  match n with
  | O => Raise ValueError
  | S n' =>
      to_check' <- list_remove current to_check ;;
      let cycle' := cycle ++ [current] in
      let nxt := f current in
      if mem nxt cycle' then
        let cycles' :=
          if (1 <? Z.of_nat (List.length cycle')) then cycles ++ [cycle'] else cycles in
        match to_check' with
        | [] => Ok cycles'
        | start :: _ => follow f n' to_check' cycles' [] start
        end
      else follow f n' to_check' cycles cycle' nxt
  end.

Definition extract (f : Z -> Z) (n : nat) (to_check : list Z)
           (cycles : list (list Z)) : result (list (list Z)) :=
  match to_check with
  | [] => Ok cycles
  | start :: _ => follow f n to_check cycles [] start
  end.

Definition _create_representation (self : t) : result (list (list Z)) :=
  let to_check := range 1 (get_dimension self + 1) in
  extract (__call__ self) (List.length to_check) to_check [].

Definition _prettify (representation : list (list Z)) : string :=
  let stringified := map (map str) representation in
  let inner_join := map (join ", ") stringified in
  let result := ("(" ++ join ")(" inner_join ++ ")")%string in
  if String.eqb result "()" then "(1)" else result.

Definition __repr__ (self : t) : result string :=
  cycles <- _create_representation self ;;
  Ok (_prettify cycles).

Definition __str__ (self : t) : result string := __repr__ self.

(** [range(len(cycle)-1, 0, -1)] *)
Definition range_down (n : nat) : list nat := rev (seq 1 (n - 1)).

(** [[cycle[0], cycle[i]] for i in range(len(cycle)-1, 0, -1)] *)
Definition transpositions (cycle : list Z) : list (list Z) :=
  map (fun i => [nth 0 cycle 0; nth i cycle 0]) (range_down (List.length cycle)).

Definition decompose (self : t) : result string :=
  cycles <- _create_representation self ;;
  let representation :=
    fold_left (fun acc cycle => acc ++ transpositions cycle) cycles [] in
  Ok (_prettify representation).

End Cycle.

Import Cycle.

(** ** The same constructor, product and inverse on a store of dictionaries

    A Python dictionary is an object: [__init__] receives a reference to
    the caller's dictionary and pops from it. Here dictionaries live in a
    store, a [Cycle] instance holds the address of its [_map], and every
    method is a store transformer. *)

Module Heap.

Definition loc : Type := nat.
Definition store : Type := list dict.
Definition M (A : Type) : Type := store -> A * store.

Definition ret {A : Type} (a : A) : M A := fun s => (a, s).
Definition seq_ {A B : Type} (c : M A) (k : A -> M B) : M B :=
  fun s => let (a, s') := c s in k a s'.

Notation "x <~ c ;; k" := (seq_ c (fun x => k))
  (at level 61, c at next level, right associativity).

Definition read (l : loc) : M dict := fun s => (nth l s empty, s).

Fixpoint update (l : loc) (d : dict) (s : store) {struct s} : store :=
  match s, l with
  | [], _ => []
  | _ :: s', O => d :: s'
  | d' :: s', S l' => d' :: update l' d s'
  end.

Definition write (l : loc) (d : dict) : M unit := fun s => (tt, update l d s).
Definition alloc (d : dict) : M loc := fun s => (List.length s, s ++ [d]).

(** [for x in l: body(x)] *)
Fixpoint for_each {A : Type} (l : list A) (body : A -> M unit) : M unit :=
  match l with
  | [] => ret tt
  | x :: l' => _ <~ body x ;; for_each l' body
  end.

(** A [Cycle] instance: the address of [self._map], and [self._dim]. *)
Record obj : Type := mk_obj { map_ref : loc; dim_of : Z }.

(** [if mapping[key] == key: mapping.pop(key)] *)
Definition strip_body (mapping : loc) (key : Z) : M unit :=
  m <~ read mapping ;;
  match get key m with
  | Some v => if v =? key then write mapping (pop key m) else ret tt
  | None => ret tt
  end.

Definition __init__ (mapping : option loc) (dimension : Z) : M obj :=
  match mapping with
  | None =>
      l <~ alloc empty ;; ret (mk_obj l dimension)
  | Some r =>
      m <~ read r ;;
      let keys := Dict.keys m in
      _ <~ for_each keys (strip_body r) ;;
      m <~ read r ;;
      l <~ alloc m ;;
      ret (mk_obj l dimension)
  end.

Definition __call__ (self : obj) (value : Z) : M Z :=
  m <~ read (map_ref self) ;;
  ret (if negb (contains value m) then value
       else match get value m with Some v => v | None => value end).

(** [new_cycle[current] = self(cycle(current))] *)
Definition mul_body (self cycle : obj) (new_cycle : loc) (current : Z) : M unit :=
  inner <~ __call__ cycle current ;;
  image <~ __call__ self inner ;;
  m <~ read new_cycle ;;
  write new_cycle (set current image m).

Definition __mul__ (self cycle : obj) : M obj :=
  let dim := Z.max (dim_of self) (dim_of cycle) in
  let to_check := range 1 (dim + 1) in
  new_cycle <~ alloc empty ;;
  _ <~ for_each to_check (mul_body self cycle new_cycle) ;;
  __init__ (Some new_cycle) dim.

Definition inverse (self : obj) : M obj :=
  m <~ read (map_ref self) ;;
  new_mapping <~ alloc (fold_left (fun d kv => set (snd kv) (fst kv) d) (items m) empty) ;;
  __init__ (Some new_mapping) (dim_of self).

(** The value a [Cycle] instance denotes in a store. *)
Definition value_of (s : store) (o : obj) : Cycle.t :=
  Cycle.mk (nth (map_ref o) s empty) (dim_of o).

End Heap.

(** ** Notions of the specification *)

(** No stored entry maps a key to itself. *)
Definition sparse (d : dict) : Prop :=
  forall k v, get k d = Some v -> v <> k.

Definition in_universe (p : Cycle.t) (x : Z) : Prop := 1 <= x <= _dim p.

(** The invariant of a permutation: a sparse dictionary over [1.._dim]
    which, with the identity on the unmapped points, is a bijection of
    [1.._dim]. *)
Record valid (p : Cycle.t) : Prop := {
  valid_wf : Dict.wf (_map p);
  valid_sparse : sparse (_map p);
  valid_range : forall k v, get k (_map p) = Some v ->
                            in_universe p k /\ in_universe p v;
  valid_inj : forall x y, in_universe p x -> in_universe p y ->
                          __call__ p x = __call__ p y -> x = y;
  valid_surj : forall y, in_universe p y ->
                         exists x, in_universe p x /\ __call__ p x = y
}.

(** Parentheses are balanced: no closing parenthesis without an opening
    one before it, and none left open at the end. *)
Fixpoint balanced_from (depth : nat) (s : string) : bool :=
  match s with
  | EmptyString => Nat.eqb depth 0
  | String c s' =>
      if Ascii.eqb c "(" then balanced_from (S depth) s'
      else if Ascii.eqb c ")" then
        match depth with
        | O => false
        | S d => balanced_from d s'
        end
      else balanced_from depth s'
  end.

Definition balanced (s : string) : bool := balanced_from 0 s.

(** All the tokens the parser hands to [int]. *)
Definition all_tokens (text : string) : list string :=
  flat_map tokens_of (split ")(" (slice_1_m1 text)).

(** The product the specification describes for the cycles [c1 ... ck]
    of a text: [build c1 * (build c2 * (... * build ck))], and the
    identity of dimension 0 when there is no cycle. *)
Fixpoint nested_product (cs : list (list Z)) : result Cycle.t :=
  match cs with
  | [] => Ok (Cycle.__init__ None 0)
  | [c] => generate_single_cycle c
  | c :: cs' =>
      left <- generate_single_cycle c ;;
      right <- nested_product cs' ;;
      Ok (Cycle.__mul__ left right)
  end.

(** The transpositions of a cycle [c0 c1 ... c(k-1)] in the order of the
    specification: [(c0, c(k-1)), ..., (c0, c1)]. *)
Definition anchored_transpositions (cycle : list Z) : list (list Z) :=
  match cycle with
  | [] => []
  | c0 :: rest => map (fun x => [c0; x]) (rev rest)
  end.

(** The list of cycles a canonical text denotes: positive, pairwise
    distinct elements, no singleton, every cycle written from its
    smallest element, and the cycles in ascending order of that element. *)
Record canonical (cs : list (list Z)) : Prop := {
  canon_pos : forall x, In x (List.concat cs) -> 1 <= x;
  canon_nodup : NoDup (List.concat cs);
  canon_long : Forall (fun c => (2 <= List.length c)%nat) cs;
  canon_min : Forall (fun c => forall x, In x c -> hd 0 c <= x) cs;
  canon_sorted : StronglySorted Z.lt (map (hd 0) cs)
}.

(** The hypothesis of the round trip as the specification words it:
    no singleton, ascending first elements. *)
Record ascending_heads (cs : list (list Z)) : Prop := {
  asc_pos : forall x, In x (List.concat cs) -> 1 <= x;
  asc_nodup : NoDup (List.concat cs);
  asc_long : Forall (fun c => (2 <= List.length c)%nat) cs;
  asc_sorted : StronglySorted Z.lt (map (hd 0) cs)
}.

(** The state of the inner loop of the extraction on a function [f] that
    permutes the points still in play: [T] is the working list, [cyc] the
    cycle under construction and [cur] the point about to be moved into it. *)
Record follow_inv (f : Z -> Z) (T cyc : list Z) (cur : Z) : Prop := {
  fi_nodup : NoDup T;
  fi_cur : In cur T;
  fi_disj : forall y, In y cyc -> ~ In y T;
  fi_closed : forall y, In y T \/ In y cyc -> In (f y) T \/ In (f y) cyc;
  fi_inj : forall x y, In x T \/ In x cyc -> In y T \/ In y cyc ->
                       f x = f y -> x = y;
  fi_chain : forall y, In y (cyc ++ [cur]) -> y <> hd cur cyc ->
                       exists z, In z cyc /\ f z = y
}.

(** A function follows the cycle [c]: it sends every element to the next
    one, and the last element to the first. *)
Definition follows_cycle (f : Z -> Z) (c : list Z) : Prop :=
  (forall pre x y post, c = pre ++ x :: y :: post -> f x = y)
  /\ (forall pre x, c = pre ++ [x] -> f x = hd 0 c).

(** Every character of a string satisfies a test. *)
Fixpoint all_chars (P : ascii -> bool) (s : string) : bool :=
  match s with
  | EmptyString => true
  | String c s' => P c && all_chars P s'
  end.

(** The characters of [str n]: a digit or the minus sign. *)
Definition is_numeric (c : ascii) : bool :=
  let n := nat_of_ascii c in
  ((48 <=? n) && (n <=? 57) || (n =? 45))%nat.

Definition differs (c0 : ascii) (c : ascii) : bool := negb (Ascii.eqb c0 c).

(** A boolean test that establishes [valid] on a concrete permutation. *)
Fixpoint nodup_b (l : list Z) : bool :=
  match l with
  | [] => true
  | x :: l' => negb (mem x l') && nodup_b l'
  end.

Definition valid_b (p : Cycle.t) : bool :=
  let universe := range 1 (_dim p + 1) in
  nodup_b (keys (_map p))
  && forallb (fun kv => negb (snd kv =? fst kv)
                        && mem (fst kv) universe && mem (snd kv) universe)
             (_map p)
  && forallb (fun x => forallb (fun y => negb (__call__ p x =? __call__ p y) || (x =? y))
                               universe) universe
  && forallb (fun y => existsb (fun x => __call__ p x =? y) universe) universe.

(** The function a single cycle denotes, and the composite of a list of
    cycles, the leftmost applied last. *)
Definition cycle_fun (c : list Z) (x : Z) : Z :=
  match generate_single_cycle c with
  | Ok p => __call__ p x
  | Raise _ => x
  end.

Definition apply_all (cs : list (list Z)) (x : Z) : Z :=
  fold_right cycle_fun x cs.

(** An entry with key and value exchanged. *)
Definition swap (kv : Z * Z) : Z * Z := (snd kv, fst kv).

(** Every stored key lies in [1.._dim]. *)
Definition keys_in_universe (p : Cycle.t) : Prop :=
  forall k v, get k (_map p) = Some v -> in_universe p k.

(** The state of the extraction on a valid permutation, with what is
    known of the cycle under construction: it is a path of [f], and its
    first element is the smallest point still in play. *)
Record extract_state (f : Z -> Z) (T cyc : list Z) (cur : Z) : Prop := {
  es_inv : follow_inv f T cyc cur;
  es_sorted : StronglySorted Z.lt T;
  es_path : forall pre x y post, cyc ++ [cur] = pre ++ x :: y :: post -> f x = y;
  es_head_T : forall y, In y T -> hd cur cyc <= y;
  es_head_cyc : forall y, In y cyc -> hd cur cyc <= y
}.

(** What the cycles [new] emitted from a state say of [f] on the points
    [S] that were in play. *)
Record describes (f : Z -> Z) (S : Z -> Prop) (new : list (list Z)) : Prop := {
  ds_in : forall x, In x (List.concat new) -> S x;
  ds_long : Forall (fun c => (2 <= List.length c)%nat) new;
  ds_follows : forall c, In c new -> follows_cycle f c;
  ds_fixed : forall x, S x -> ~ In x (List.concat new) -> f x = x;
  ds_min : Forall (fun c => forall x, In x c -> hd 0 c <= x) new;
  ds_sorted : StronglySorted Z.lt (map (hd 0) new)
}.

(** The interpreter's default limit on the digits of an integer literal
    ([sys.int_max_str_digits]): [int(s)] raises [ValueError] on a longer
    digit string even when it is a literal. The model [int] has no such
    limit, so it agrees with the interpreter on the tokens that are at
    most this long. *)
Definition int_max_str_digits : nat := 4300.

(** An integer literal, as the grammar of [int] words it: optional white
    space, one optional sign, then decimal digits in which single
    underscores may separate two digits. *)
Definition is_digit (c : ascii) : bool :=
  let n := nat_of_ascii c in ((48 <=? n) && (n <=? 57))%nat.

Fixpoint digits_ok (prev : bool) (s : string) : bool :=
  match s with
  | EmptyString => prev
  | String c s' =>
      if Ascii.eqb c "_" then prev && digits_ok false s'
      else is_digit c && digits_ok true s'
  end.

Definition is_int_literal (s : string) : bool :=
  match strip_ws s with
  | EmptyString => false
  | String c s' =>
      if Ascii.eqb c "-" || Ascii.eqb c "+" then digits_ok false s'
      else digits_ok false (String c s')
  end.

(** * Properties *)

(** ** Dictionaries *)

Lemma get_set (x k v : Z) (d : dict) :
  get x (set k v d) = if x =? k then Some v else get x d.
Proof.
  induction d as [|[k' v'] d IH]; simpl.
  - reflexivity.
  - destruct (Z.eqb_spec k k') as [->|Hk]; simpl.
    + destruct (Z.eqb_spec x k'); reflexivity.
    + rewrite IH. destruct (Z.eqb_spec x k') as [->|Hx].
      * destruct (Z.eqb_spec k' k); [congruence | reflexivity].
      * reflexivity.
Qed.

Lemma get_pop (x k : Z) (d : dict) :
  get x (pop k d) = if x =? k then None else get x d.
Proof.
  unfold pop. induction d as [|[k' v'] d IH]; simpl.
  - destruct (x =? k); reflexivity.
  - destruct (Z.eqb_spec k k') as [->|Hk]; simpl.
    + rewrite IH. destruct (Z.eqb_spec x k'); reflexivity.
    + rewrite IH. destruct (Z.eqb_spec x k') as [->|Hx].
      * destruct (Z.eqb_spec k' k); [congruence | reflexivity].
      * reflexivity.
Qed.

Lemma get_some_in (x v : Z) (d : dict) : get x d = Some v -> In (x, v) d.
Proof.
  induction d as [|[k' v'] d IH]; simpl; [discriminate|].
  destruct (Z.eqb_spec x k') as [->|Hx].
  - intros [= ->]. now left.
  - intros H. right. now apply IH.
Qed.

Lemma get_none_iff (x : Z) (d : dict) : get x d = None <-> ~ In x (keys d).
Proof.
  induction d as [|[k' v'] d IH]; simpl.
  - tauto.
  - destruct (Z.eqb_spec x k') as [->|Hx].
    + split; [discriminate | intros H; exfalso; apply H; now left].
    + rewrite IH. split; [intros H [E|I]; [congruence | tauto] | tauto].
Qed.

Lemma in_get (k v : Z) (d : dict) : Dict.wf d -> In (k, v) d -> get k d = Some v.
Proof.
  unfold Dict.wf. induction d as [|[k' v'] d IH]; simpl; [tauto|].
  intros Hnd [E|I].
  - injection E as -> ->. now rewrite Z.eqb_refl.
  - inversion Hnd as [|? ? Hni Hnd']; subst.
    destruct (Z.eqb_spec k k') as [->|Hx].
    + exfalso. apply Hni. change k' with (fst (k', v)). now apply in_map.
    + now apply IH.
Qed.

Lemma get_all_none (d : dict) : (forall x, get x d = None) -> d = [].
Proof.
  destruct d as [|[k v] d]; [reflexivity|].
  intros H. specialize (H k). simpl in H. now rewrite Z.eqb_refl in H.
Qed.

Lemma mem_true_iff (x : Z) (l : list Z) : mem x l = true <-> In x l.
Proof.
  unfold mem. rewrite existsb_exists. split.
  - intros [y [Hy E]]. apply Z.eqb_eq in E. now subst.
  - intros H. exists x. split; [assumption | apply Z.eqb_refl].
Qed.

Lemma mem_false_iff (x : Z) (l : list Z) : mem x l = false <-> ~ In x l.
Proof.
  rewrite <- mem_true_iff. destruct (mem x l); split; congruence.
Qed.

Lemma in_range (x lo hi : Z) : In x (range lo hi) <-> lo <= x < hi.
Proof.
  unfold range. rewrite in_map_iff. split.
  - intros [i [<- Hi]]. apply in_seq in Hi. lia.
  - intros H. exists (Z.to_nat (x - lo)). split; [lia|].
    apply in_seq. lia.
Qed.

(** ** The constructor strips exactly the fixed entries *)

Lemma get_strip_loop (x : Z) (ks : list Z) (d : dict) :
  get x (fold_left strip_step ks d) =
  match get x d with
  | Some v => if (v =? x) && mem x ks then None else Some v
  | None => None
  end.
Proof.
  revert d. induction ks as [|k ks IH]; intros d; simpl.
  - destruct (get x d); [now rewrite andb_false_r | reflexivity].
  - rewrite IH. unfold strip_step.
    destruct (Z.eqb_spec x k) as [->|Hx]; simpl.
    + destruct (get k d) as [vk|] eqn:Hk; [|now rewrite Hk].
      destruct (Z.eqb_spec vk k) as [->|Hv].
      * rewrite get_pop, Z.eqb_refl. reflexivity.
      * rewrite Hk. destruct (Z.eqb_spec vk k); [congruence | reflexivity].
    + destruct (get k d) as [vk|] eqn:Hk; [|reflexivity].
      destruct (Z.eqb_spec vk k) as [->|Hv]; [|reflexivity].
      rewrite get_pop. destruct (Z.eqb_spec x k); [congruence | reflexivity].
Qed.

Lemma get_strip (x : Z) (d : dict) :
  get x (strip d) =
  match get x d with
  | Some v => if v =? x then None else Some v
  | None => None
  end.
Proof.
  unfold strip. rewrite get_strip_loop.
  destruct (get x d) as [v|] eqn:H; [|reflexivity].
  assert (Hm : mem x (keys d) = true).
  { apply mem_true_iff. apply get_some_in in H.
    change x with (fst (x, v)). now apply in_map. }
  now rewrite Hm, andb_true_r.
Qed.

Lemma strip_sparse (d : dict) : sparse (strip d).
Proof.
  intros k v H. rewrite get_strip in H.
  destruct (get k d) as [w|]; [|discriminate].
  destruct (Z.eqb_spec w k); [discriminate|]. congruence.
Qed.

(** ** Application and composition *)

Lemma call_get (p : Cycle.t) (x : Z) :
  __call__ p x = match get x (_map p) with Some v => v | None => x end.
Proof.
  unfold __call__, contains. destruct (get x (_map p)); reflexivity.
Qed.

Lemma get_mul_loop (a b : Cycle.t) (x : Z) (l : list Z) (d : dict) :
  get x (mul_loop a b l d) =
  if mem x l then Some (__call__ a (__call__ b x)) else get x d.
Proof.
  unfold mul_loop. revert d. induction l as [|c l IH]; intros d; simpl.
  - reflexivity.
  - rewrite IH, get_set.
    destruct (Z.eqb_spec x c) as [->|Hx]; simpl.
    + now destruct (mem c l).
    + reflexivity.
Qed.

Lemma call_mul (a b : Cycle.t) (x : Z) :
  __call__ (__mul__ a b) x =
  if mem x (range 1 (Z.max (_dim a) (_dim b) + 1))
  then __call__ a (__call__ b x) else x.
Proof.
  rewrite call_get. unfold __mul__, get_dimension. simpl.
  rewrite get_strip, get_mul_loop.
  destruct (mem x _); simpl; [|reflexivity].
  destruct (Z.eqb_spec (__call__ a (__call__ b x)) x); congruence.
Qed.

(** C1. For all [a], [b] and every [x] in [1..max(dim a, dim b)], the
    product [a * b] applied to [x] is [a(b(x))]; the dimension of the
    product is the larger of the two dimensions. *)
Theorem mul_applies_right_then_left (a b : Cycle.t) :
  (forall x, 1 <= x <= Z.max (get_dimension a) (get_dimension b) ->
             __call__ (__mul__ a b) x = __call__ a (__call__ b x))
  /\ get_dimension (__mul__ a b) = Z.max (get_dimension a) (get_dimension b).
Proof.
  split; [|reflexivity].
  intros x Hx. rewrite call_mul.
  assert (Hm : mem x (range 1 (Z.max (_dim a) (_dim b) + 1)) = true).
  { apply mem_true_iff, in_range. unfold get_dimension in Hx. lia. }
  now rewrite Hm.
Qed.

Lemma mul_applies_right_then_left_witness :
  1 <= 2 <= Z.max (get_dimension (Cycle.mk [(1, 4); (4, 3); (3, 2); (2, 1)] 4))
                  (get_dimension (Cycle.mk [(1, 2); (2, 1)] 2))
  /\ __call__ (__mul__ (Cycle.mk [(1, 4); (4, 3); (3, 2); (2, 1)] 4)
                       (Cycle.mk [(1, 2); (2, 1)] 2)) 2
     = __call__ (Cycle.mk [(1, 4); (4, 3); (3, 2); (2, 1)] 4)
                (__call__ (Cycle.mk [(1, 2); (2, 1)] 2) 2).
Proof.
  split; [simpl; lia|].
  apply (proj1 (mul_applies_right_then_left _ _)). simpl. lia.
Defined.

(** ** The sparse invariant *)

Lemma single_cycle_sparse (l : list Z) (p : Cycle.t) :
  generate_single_cycle l = Ok p -> sparse (_map p).
Proof.
  unfold generate_single_cycle. destruct l as [|x l]; simpl; [discriminate|].
  intros [= <-]. apply strip_sparse.
Qed.

Lemma fold_loop_sparse (front : list (list Z)) :
  forall last p, sparse (_map last) -> fold_loop front last = Ok p -> sparse (_map p).
Proof.
  induction front as [|c front IH]; intros last p Hl; simpl.
  - now intros [= <-].
  - destruct (generate_single_cycle c) as [second|e]; simpl; [|discriminate].
    apply IH. apply strip_sparse.
Qed.

Lemma parse_sparse (text : string) (p : Cycle.t) :
  Cycle text = Ok p -> sparse (_map p).
Proof.
  unfold Cycle.
  destruct (read_cycles _) as [cycles|e]; simpl; [|discriminate].
  destruct (rev cycles) as [|c front].
  - intros [= <-]. intros k v H. discriminate H.
  - destruct (generate_single_cycle c) as [last|e] eqn:Hc; simpl; [|discriminate].
    apply fold_loop_sparse. now apply single_cycle_sparse with c.
Qed.

(** C2. Whatever operation produced a permutation (the constructor with
    or without a raw mapping, the parser, the single-cycle builder, the
    product, the inverse), no key of its stored mapping is mapped to
    itself. *)
Theorem stored_mapping_has_no_fixed_entry :
  (forall m d, sparse (_map (Cycle.__init__ (Some m) d))) /\
  (forall d, sparse (_map (Cycle.__init__ None d))) /\
  (forall text p, Cycle text = Ok p -> sparse (_map p)) /\
  (forall l p, generate_single_cycle l = Ok p -> sparse (_map p)) /\
  (forall a b, sparse (_map (Cycle.__mul__ a b))) /\
  (forall a, sparse (_map (Cycle.inverse a))).
Proof.
  repeat split.
  - intros m d. apply strip_sparse.
  - intros d k v H. discriminate H.
  - apply parse_sparse.
  - apply single_cycle_sparse.
  - intros a b. apply strip_sparse.
  - intros a. apply strip_sparse.
Qed.

Lemma stored_mapping_has_no_fixed_entry_witness :
  Cycle "(1, 2)(2, 3)(4)" = Ok (Cycle.mk [(1, 2); (2, 3); (3, 1)] 4)
  /\ sparse [(1, 2); (2, 3); (3, 1)].
Proof.
  split; [reflexivity|].
  exact (proj1 (proj2 (proj2 stored_mapping_has_no_fixed_entry))
           "(1, 2)(2, 3)(4)" (Cycle.mk [(1, 2); (2, 3); (3, 1)] 4) eq_refl).
Defined.

(** ** The single cycle [[2; 3; 1]] *)

Lemma single_cycle_231_printed_from_1 :
  (p <- generate_single_cycle [2; 3; 1] ;; __repr__ p) <> Ok "(2, 3, 1)".
Proof. vm_compute. discriminate. Qed.

(** C3, amended. [generate_single_cycle [2; 3; 1]] stores [{2:3, 3:1, 1:2}]
    with dimension 3, and it is printed ["(1, 2, 3)"]: the extraction
    starts every cycle at the smallest element not yet visited, not at
    the element listed first. *)
Theorem single_cycle_231 :
  generate_single_cycle [2; 3; 1] = Ok (Cycle.mk [(2, 3); (3, 1); (1, 2)] 3)
  /\ (p <- generate_single_cycle [2; 3; 1] ;; __repr__ p) = Ok "(1, 2, 3)".
Proof. split; reflexivity. Qed.

(** ** Decomposition into transpositions *)

Lemma nth_seq_tail (rest : list Z) (c0 : Z) :
  map (fun i => nth i (c0 :: rest) 0) (seq 1 (List.length rest)) = rest.
Proof.
  revert c0. induction rest as [|r rest IH]; intros c0; simpl.
  - reflexivity.
  - f_equal. rewrite <- seq_shift, map_map.
    rewrite <- (IH r) at 2. apply map_ext. intros i. reflexivity.
Qed.

Lemma transpositions_anchored (cycle : list Z) :
  transpositions cycle = anchored_transpositions cycle.
Proof.
  destruct cycle as [|c0 rest]; [reflexivity|].
  unfold transpositions, anchored_transpositions, range_down.
  replace (List.length (c0 :: rest) - 1)%nat with (List.length rest)
    by (simpl; lia).
  rewrite <- (nth_seq_tail rest c0) at 2.
  rewrite <- !map_rev, map_map. reflexivity.
Qed.

Lemma fold_left_app_flat_map {A B : Type} (f : A -> list B) (l : list A) (acc : list B) :
  fold_left (fun acc x => acc ++ f x) l acc = acc ++ flat_map f l.
Proof.
  revert acc. induction l as [|x l IH]; intros acc; simpl.
  - now rewrite app_nil_r.
  - now rewrite IH, app_assoc.
Qed.

(** C8. [decompose] renders, with [_prettify], the extracted cycles with
    each cycle [c0 c1 ... c(k-1)] replaced by the [k-1] transpositions
    [(c0, c(k-1)), ..., (c0, c1)], in that order; on the parse of
    ["(1, 2, 3)"] it returns ["(1, 3)(1, 2)"]. *)
Theorem decompose_anchored_transpositions :
  (forall p, decompose p =
             (cycles <- _create_representation p ;;
              Ok (_prettify (flat_map anchored_transpositions cycles))))
  /\ (forall cycle, List.length (anchored_transpositions cycle)
                    = (List.length cycle - 1)%nat)
  /\ (p <- Cycle "(1, 2, 3)" ;; decompose p) = Ok "(1, 3)(1, 2)".
Proof.
  split; [|split; [|reflexivity]].
  2: { intros [|c0 rest]; simpl; [reflexivity|].
       rewrite length_map, length_rev. lia. }
  intros p. unfold decompose.
  destruct (_create_representation p) as [cycles|e]; simpl; [|reflexivity].
  rewrite fold_left_app_flat_map. simpl. do 2 f_equal.
  induction cycles as [|c cycles IH]; simpl; [reflexivity|].
  now rewrite IH, transpositions_anchored.
Qed.

(** ** The parser folds the cycles from the right *)

Lemma bind_ok {A : Type} (r : result A) : (x <- r ;; Ok x) = r.
Proof. now destruct r. Qed.

Lemma mapM_ok_length {A B : Type} (f : A -> result B) (l : list A) (bs : list B) :
  mapM f l = Ok bs -> List.length bs = List.length l.
Proof.
  revert bs. induction l as [|a l IH]; intros bs; simpl.
  - now intros [= <-].
  - destruct (f a); simpl; [|discriminate].
    destruct (mapM f l); simpl; [|discriminate].
    intros [= <-]. simpl. f_equal. now apply IH.
Qed.

Lemma read_cycles_nonempty (bracketed : list string) :
  forall cs, read_cycles bracketed = Ok cs -> Forall (fun c => c <> []) cs.
Proof.
  induction bracketed as [|piece rest IH]; intros cs; simpl.
  - intros [= <-]. constructor.
  - destruct (tokens_of piece) as [|tok toks] eqn:Ht; [apply IH|].
    destruct (mapM int (tok :: toks)) as [ints|e] eqn:Hm; simpl; [|discriminate].
    destruct (read_cycles rest) as [cs'|e]; simpl; [|discriminate].
    intros [= <-]. constructor; [|now apply IH].
    apply mapM_ok_length in Hm. destruct ints; [discriminate | congruence].
Qed.

Lemma single_cycle_ok (c : list Z) :
  c <> [] -> exists p, generate_single_cycle c = Ok p.
Proof.
  destruct c as [|x c]; [congruence|]. intros _. eexists. reflexivity.
Qed.

Lemma fold_loop_app (l1 l2 : list (list Z)) (last : Cycle.t) :
  fold_loop (l1 ++ l2) last = (r <- fold_loop l1 last ;; fold_loop l2 r).
Proof.
  revert last. induction l1 as [|c l1 IH]; intros last; simpl.
  - reflexivity.
  - destruct (generate_single_cycle c); simpl; [apply IH | reflexivity].
Qed.

Lemma nested_product_snoc (front : list (list Z)) (c : list Z) :
  Forall (fun c => c <> []) front ->
  nested_product (front ++ [c]) =
  (last <- generate_single_cycle c ;; fold_loop (rev front) last).
Proof.
  induction front as [|f1 front IH]; intros Hne.
  - simpl. now rewrite bind_ok.
  - inversion Hne as [|? ? Hf1 Hfront]; subst.
    destruct (single_cycle_ok f1 Hf1) as [p1 Hp1].
    change ((f1 :: front) ++ [c]) with (f1 :: (front ++ [c])).
    simpl nested_product. simpl rev.
    destruct (front ++ [c]) as [|y ys] eqn:Hs.
    { now destruct front. }
    rewrite IH by assumption. rewrite Hp1. simpl.
    destruct (generate_single_cycle c) as [pc|e]; simpl; [|reflexivity].
    rewrite fold_loop_app.
    destruct (fold_loop (rev front) pc); simpl; [|reflexivity].
    now rewrite Hp1.
Qed.

Lemma nested_product_ok (cs : list (list Z)) :
  Forall (fun c => c <> []) cs -> exists p, nested_product cs = Ok p.
Proof.
  induction cs as [|c cs IH]; intros Hne.
  - eexists. reflexivity.
  - inversion Hne as [|? ? Hc Hcs]; subst.
    destruct (single_cycle_ok c Hc) as [pc Hpc].
    destruct (IH Hcs) as [p Hp]. simpl.
    destruct cs; [now exists pc|].
    rewrite Hpc, Hp. eexists. reflexivity.
Qed.

Lemma parse_nested_product (text : string) (cs : list (list Z)) :
  read_cycles (split ")(" (slice_1_m1 text)) = Ok cs ->
  Cycle text = nested_product cs.
Proof.
  intros Hr. unfold Cycle. rewrite Hr. simpl.
  pose proof (read_cycles_nonempty _ _ Hr) as Hne.
  destruct (rev cs) as [|c front] eqn:Hrev.
  - apply (f_equal (@rev _)) in Hrev. rewrite rev_involutive in Hrev.
    now subst.
  - apply (f_equal (@rev _)) in Hrev. rewrite rev_involutive in Hrev.
    simpl in Hrev. subst cs.
    rewrite nested_product_snoc, rev_involutive; [reflexivity|].
    apply Forall_app in Hne. tauto.
Qed.

(** C5. When the text holds the non-empty cycles [c1 ... ck], the parser
    returns [build c1 * (build c2 * (... * build ck))], the left cycle
    being the outer function; with no non-empty cycle it returns the
    identity of dimension 0. *)
Theorem parse_folds_right (text : string) (cs : list (list Z)) :
  read_cycles (split ")(" (slice_1_m1 text)) = Ok cs ->
  exists p, Cycle text = Ok p /\ nested_product cs = Ok p
            /\ (cs = [] -> p = Cycle.mk empty 0).
Proof.
  intros Hr.
  destruct (nested_product_ok cs (read_cycles_nonempty _ _ Hr)) as [p Hp].
  exists p. rewrite (parse_nested_product _ _ Hr). repeat split; try assumption.
  intros ->. simpl in Hp. congruence.
Qed.

Lemma parse_folds_right_witness :
  exists p, Cycle "(1, 2)(2, 3)()(3, 4)" = Ok p
            /\ nested_product [[1; 2]; [2; 3]; [3; 4]] = Ok p
            /\ ([[1; 2]; [2; 3]; [3; 4]] = [] -> p = Cycle.mk empty 0).
Proof.
  apply (parse_folds_right "(1, 2)(2, 3)()(3, 4)" [[1; 2]; [2; 3]; [3; 4]]).
  reflexivity.
Defined.

(** ** What the parser rejects *)

Lemma mapM_int_raises (toks : list string) :
  (exists e, mapM int toks = Raise e) <->
  Exists (fun tok => int tok = Raise ValueError) toks.
Proof.
  induction toks as [|tok toks IH]; simpl.
  - split; [intros [e H]; discriminate | intros H; inversion H].
  - destruct (int tok) as [n|[]] eqn:Hn; simpl.
    + destruct (mapM int toks) as [ns|e] eqn:Hm; simpl.
      * split; [intros [e H]; discriminate|].
        intros H. inversion H as [? ? H1|? ? H1]; subst; [congruence|].
        apply IH in H1. destruct H1 as [e H1]. discriminate.
      * split; [|intros _; now exists e].
        intros _. apply Exists_cons_tl. apply IH. now exists e.
    + split; [|intros _; now exists ValueError].
      intros _. now apply Exists_cons_hd.
Qed.

Lemma read_cycles_raises (bracketed : list string) :
  (exists e, read_cycles bracketed = Raise e) <->
  Exists (fun tok => int tok = Raise ValueError) (flat_map tokens_of bracketed).
Proof.
  induction bracketed as [|piece rest IH]; simpl.
  - split; [intros [e H]; discriminate | intros H; inversion H].
  - rewrite Exists_app, <- IH, <- mapM_int_raises.
    destruct (tokens_of piece) as [|tok toks] eqn:Ht.
    + split; [tauto|]. intros [[e H]|H]; [discriminate H | exact H].
    + destruct (mapM int (tok :: toks)) as [ints|e]; simpl.
      * destruct (read_cycles rest) as [cs|e]; simpl.
        -- split; [intros [e H]; discriminate|].
           intros [[e H]|[e H]]; discriminate.
        -- split; [intros _; right; now exists e | intros _; now exists e].
      * split; [intros _; left; now exists e | intros _; now exists e].
Qed.


Lemma parse_raises_iff_int_raises (text : string) :
  (exists e, Cycle text = Raise e) <->
  Exists (fun tok => int tok = Raise ValueError) (all_tokens text).
Proof.
  unfold all_tokens. rewrite <- read_cycles_raises.
  destruct (read_cycles (split ")(" (slice_1_m1 text))) as [cs|e] eqn:Hr.
  - destruct (nested_product_ok cs (read_cycles_nonempty _ _ Hr)) as [p Hp].
    rewrite (parse_nested_product _ _ Hr), Hp.
    split; intros [e H]; discriminate.
  - unfold Cycle. rewrite Hr. simpl. split; intros _; now exists e.
Qed.

Lemma uint_of_char_digit (c : ascii) (u : Decimal.uint) :
  match uint_of_char c (Some u) with Some _ => true | None => false end
  = is_digit c.
Proof. destruct c as [[] [] [] [] [] [] [] []]; reflexivity. Qed.

Lemma digits_ok_int_digits (s : string) :
  forall prev,
    digits_ok prev s
    = match int_digits prev s with Some _ => true | None => false end.
Proof.
  induction s as [|c s IH]; intros prev; simpl.
  - now destruct prev.
  - destruct (Ascii.eqb c "_").
    + destruct prev; simpl; [apply IH | reflexivity].
    + rewrite IH. destruct (int_digits true s) as [u|].
      * rewrite andb_true_r. symmetry. apply uint_of_char_digit.
      * now rewrite andb_false_r.
Qed.

Lemma int_raises_iff_not_literal (tok : string) :
  int tok = Raise ValueError <-> is_int_literal tok = false.
Proof.
  unfold int, is_int_literal. destruct (strip_ws tok) as [|c s']; [tauto|].
  destruct (Ascii.eqb c "-"), (Ascii.eqb c "+"); cbn [orb];
    rewrite digits_ok_int_digits;
    match goal with
    | |- context [int_digits false ?s] => destruct (int_digits false s)
    end; split; congruence.
Qed.

Lemma exists_bad_token (toks : list string) :
  Exists (fun tok => int tok = Raise ValueError) toks <->
  Exists (fun tok => is_int_literal tok = false) toks.
Proof.
  rewrite !Exists_exists. split; intros [tok [Hin H]]; exists tok;
    (split; [assumption | now apply int_raises_iff_not_literal]).
Qed.



(** ** The working list of the extraction *)

Lemma list_remove_in (x : Z) (l : list Z) :
  In x l -> exists l', list_remove x l = Ok l'.
Proof.
  induction l as [|y l IH]; simpl; [tauto|].
  destruct (Z.eqb_spec x y) as [->|Hxy]; [now eexists|].
  intros [E|I]; [congruence|].
  destruct (IH I) as [l' ->]. now eexists.
Qed.

Lemma list_remove_length (x : Z) (l l' : list Z) :
  list_remove x l = Ok l' -> List.length l = S (List.length l').
Proof.
  revert l'. induction l as [|y l IH]; intros l'; simpl; [discriminate|].
  destruct (x =? y); [now intros [= ->]|].
  destruct (list_remove x l) as [l''|e]; simpl; [|discriminate].
  intros [= <-]. simpl. f_equal. now apply IH.
Qed.

Lemma list_remove_spec (x : Z) (l l' : list Z) :
  NoDup l -> list_remove x l = Ok l' ->
  NoDup l' /\ forall y, In y l' <-> In y l /\ y <> x.
Proof.
  revert l'. induction l as [|z l IH]; intros l' Hnd; simpl; [discriminate|].
  inversion Hnd as [|? ? Hz Hnd']; subst.
  destruct (Z.eqb_spec x z) as [->|Hxz].
  - intros [= ->]. split; [assumption|].
    intros y. split; [|intros [[E|I] Hne]; [congruence | assumption]].
    intros Hy. split; [now right | congruence].
  - destruct (list_remove x l) as [l''|e]; simpl; [|discriminate].
    intros [= <-]. destruct (IH l'' Hnd' eq_refl) as [Hnd'' Hin]. split.
    + constructor; [|assumption]. rewrite Hin. tauto.
    + intros y. simpl. rewrite Hin. split.
      * intros [<-|[Hy Hne]]; split; auto.
      * intros [[E|I] Hne]; auto.
Qed.

Lemma list_remove_sorted (x : Z) (l l' : list Z) :
  StronglySorted Z.lt l -> list_remove x l = Ok l' -> StronglySorted Z.lt l'.
Proof.
  revert l'. induction l as [|z l IH]; intros l' Hs; simpl; [discriminate|].
  inversion Hs as [|? ? Hs' Hall]; subst.
  destruct (x =? z); [now intros [= ->]|].
  destruct (list_remove x l) as [l''|e] eqn:Hr; simpl; [|discriminate].
  intros [= <-]. constructor; [now apply IH|].
  rewrite Forall_forall in *. intros y Hy. apply Hall.
  clear - Hr Hy. revert l'' Hr Hy. induction l as [|w l IH]; intros l''; simpl; [discriminate|].
  destruct (x =? w); [intros [= ->]; now right|].
  destruct (list_remove x l) as [l3|e]; simpl; [|discriminate].
  intros [= <-] [E|I]; [now left | right; now apply (IH l3)].
Qed.

Lemma sorted_nodup (l : list Z) : StronglySorted Z.lt l -> NoDup l.
Proof.
  induction 1 as [|x l Hs IH Hall]; constructor; [|assumption].
  intros Hin. rewrite Forall_forall in Hall. specialize (Hall x Hin). lia.
Qed.

Lemma range_sorted (lo hi : Z) : StronglySorted Z.lt (range lo hi).
Proof.
  unfold range. generalize (Z.to_nat (hi - lo)) as n. generalize 0%nat as s.
  intros s n. revert s. induction n as [|n IH]; intros s; simpl; constructor.
  - apply IH.
  - rewrite Forall_forall. intros y Hy. apply in_map_iff in Hy.
    destruct Hy as [i [<- Hi]]. apply in_seq in Hi. lia.
Qed.

(** ** Extraction terminates, whatever the counter *)

Section Extraction.

Variable f : Z -> Z.

Lemma follow_counter (n : nat) :
  forall m T cycles cyc cur,
    (List.length T <= n)%nat -> (List.length T <= m)%nat ->
    follow f n T cycles cyc cur = follow f m T cycles cyc cur.
Proof.
  induction n as [|n IH]; intros m T cycles cyc cur Hn Hm.
  - destruct T; [|simpl in Hn; lia]. destruct m; reflexivity.
  - destruct m as [|m].
    + destruct T; [reflexivity | simpl in Hm; lia].
    + simpl. destruct (list_remove cur T) as [T'|e] eqn:Hr; simpl; [|reflexivity].
      apply list_remove_length in Hr.
      destruct (mem (f cur) (cyc ++ [cur])).
      * destruct T' as [|start T'']; [reflexivity|]. apply IH; lia.
      * apply IH; lia.
Qed.

Lemma extract_counter (n m : nat) (T : list Z) (cycles : list (list Z)) :
  (List.length T <= n)%nat -> (List.length T <= m)%nat ->
  extract f n T cycles = extract f m T cycles.
Proof.
  intros Hn Hm. unfold extract. destruct T; [reflexivity|].
  now apply follow_counter.
Qed.

Lemma follow_inv_next (T T' cyc : list Z) (cur : Z) :
  follow_inv f T cyc cur -> list_remove cur T = Ok T' ->
  mem (f cur) (cyc ++ [cur]) = false ->
  follow_inv f T' (cyc ++ [cur]) (f cur).
Proof.
  intros [Hnd Hcur Hdisj Hcl Hinj Hch] Hr Hm.
  destruct (list_remove_spec _ _ _ Hnd Hr) as [Hnd' Hin].
  apply mem_false_iff in Hm.
  assert (Hsame : forall y, In y T' \/ In y (cyc ++ [cur]) <-> In y T \/ In y cyc).
  { intros y. rewrite Hin, in_app_iff. simpl.
    destruct (Z.eq_dec y cur) as [->|Hne]; [tauto|].
    intuition congruence. }
  constructor.
  - assumption.
  - destruct (Hcl cur (or_introl Hcur)) as [H|H].
    + apply Hin. split; [assumption|].
      intros E. apply Hm. rewrite E. apply in_app_iff. right. now left.
    + exfalso. apply Hm. apply in_app_iff. now left.
  - intros y Hy. rewrite Hin. apply in_app_iff in Hy.
    destruct Hy as [Hy|[<-|[]]]; [|tauto].
    intros [HyT _]. now apply (Hdisj y).
  - intros y Hy. apply Hsame. apply Hcl. now apply Hsame.
  - intros x y Hx Hy. apply Hinj; now apply Hsame.
  - intros y Hy Hne.
    assert (Hhd : hd (f cur) (cyc ++ [cur]) = hd cur cyc) by now destruct cyc.
    rewrite Hhd in Hne. apply in_app_iff in Hy.
    destruct Hy as [Hy|[<-|[]]].
    + destruct (Hch y Hy Hne) as [z [Hz Hfz]].
      exists z. split; [apply in_app_iff; now left | assumption].
    + exists cur. split; [apply in_app_iff; right; now left | reflexivity].
Qed.

Lemma follow_inv_restart (T T' cyc : list Z) (cur start : Z) :
  follow_inv f T cyc cur -> list_remove cur T = Ok T' ->
  mem (f cur) (cyc ++ [cur]) = true -> In start T' ->
  follow_inv f T' [] start.
Proof.
  intros [Hnd Hcur Hdisj Hcl Hinj Hch] Hr Hm Hstart.
  destruct (list_remove_spec _ _ _ Hnd Hr) as [Hnd' Hin].
  apply mem_true_iff in Hm.
  assert (Hnotin : ~ In cur cyc) by (intros H; now apply (Hdisj cur)).
  assert (Hclose : f cur = hd cur cyc).
  { destruct (Z.eq_dec (f cur) (hd cur cyc)) as [E|Hne]; [assumption|].
    destruct (Hch _ Hm Hne) as [z [Hz Hfz]].
    assert (z = cur) by (apply Hinj; auto). congruence. }
  assert (Hkeep : forall y, In y T' -> In (f y) T').
  { intros y Hy. apply Hin in Hy. destruct Hy as [HyT Hyc].
    assert (Hout : ~ In (f y) (cyc ++ [cur])).
    { intros Hfy.
      destruct (Z.eq_dec (f y) (hd cur cyc)) as [E|Hne].
      - apply Hyc. apply Hinj; auto. congruence.
      - destruct (Hch _ Hfy Hne) as [z [Hz Hfz]].
        assert (z = y) by (apply Hinj; auto). subst z.
        now apply (Hdisj y). }
    rewrite in_app_iff in Hout. simpl in Hout.
    apply Hin. destruct (Hcl y (or_introl HyT)) as [H|H]; [|tauto].
    split; [assumption|]. intros E. apply Hout. right. left. congruence. }
  constructor.
  - assumption.
  - assumption.
  - intros y [].
  - intros y [Hy|[]]. left. now apply Hkeep.
  - intros x y [Hx|[]] [Hy|[]]. apply Hin in Hx, Hy. apply Hinj; tauto.
  - simpl. intros y [<-|[]] Hne. congruence.
Qed.

Lemma follow_returns (n : nat) :
  forall T cycles cyc cur,
    (List.length T <= n)%nat -> follow_inv f T cyc cur ->
    exists out, follow f n T cycles cyc cur = Ok out.
Proof.
  induction n as [|n IH]; intros T cycles cyc cur Hn Hinv.
  - destruct T; [|simpl in Hn; lia]. destruct (fi_cur _ _ _ _ Hinv).
  - simpl. destruct (list_remove_in cur T (fi_cur _ _ _ _ Hinv)) as [T' Hr].
    rewrite Hr. simpl.
    pose proof (list_remove_length _ _ _ Hr) as Hlen.
    destruct (mem (f cur) (cyc ++ [cur])) eqn:Hm.
    + destruct T' as [|start T'']; [now eexists|].
      apply IH; [lia|].
      apply (follow_inv_restart T _ cyc cur); auto. now left.
    + apply IH; [lia|]. now apply follow_inv_next with T.
Qed.

(** On the points it fixes, the extraction emits nothing. *)
Lemma extract_fixed (T : list Z) :
  forall n cycles,
    (List.length T <= n)%nat -> (forall x, In x T -> f x = x) ->
    extract f n T cycles = Ok cycles.
Proof.
  induction T as [|x T IH]; intros n cycles Hn Hfix; [reflexivity|].
  destruct n as [|n]; [simpl in Hn; lia|].
  simpl. rewrite Z.eqb_refl. simpl.
  rewrite (Hfix x (or_introl eq_refl)). unfold mem. simpl.
  rewrite Z.eqb_refl. simpl.
  specialize (IH n cycles). unfold extract in IH.
  destruct T as [|start T']; [reflexivity|].
  apply IH; [simpl in *; lia|]. intros y Hy. apply Hfix. now right.
Qed.

End Extraction.

(** ** Valid permutations *)

Lemma nodup_b_sound (l : list Z) : nodup_b l = true -> NoDup l.
Proof.
  induction l as [|x l IH]; simpl; intros H; constructor.
  - apply andb_prop in H. destruct H as [H _].
    apply negb_true_iff, mem_false_iff in H. exact H.
  - apply IH. apply andb_prop in H. tauto.
Qed.

Lemma in_universe_range (p : Cycle.t) (x : Z) :
  In x (range 1 (_dim p + 1)) <-> in_universe p x.
Proof. rewrite in_range. unfold in_universe. lia. Qed.

Lemma valid_b_sound (p : Cycle.t) : valid_b p = true -> valid p.
Proof.
  unfold valid_b. intros H.
  repeat (apply andb_prop in H; destruct H as [H ?]).
  rename H into Hnd, H0 into Hsurj, H1 into Hinj, H2 into Hent.
  rewrite forallb_forall in Hent, Hinj, Hsurj.
  constructor.
  - now apply nodup_b_sound.
  - intros k v Hg. apply get_some_in, Hent in Hg. simpl in Hg.
    repeat (apply andb_prop in Hg; destruct Hg as [Hg ?]).
    apply negb_true_iff, Z.eqb_neq in Hg. exact Hg.
  - intros k v Hg. apply get_some_in, Hent in Hg. simpl in Hg.
    repeat (apply andb_prop in Hg; destruct Hg as [Hg ?]).
    split; apply in_universe_range, mem_true_iff; assumption.
  - intros x y Hx Hy E. apply in_universe_range in Hx, Hy.
    specialize (Hinj x Hx). rewrite forallb_forall in Hinj.
    specialize (Hinj y Hy). rewrite E, Z.eqb_refl in Hinj. simpl in Hinj.
    now apply Z.eqb_eq.
  - intros y Hy. apply in_universe_range in Hy.
    specialize (Hsurj y Hy). apply existsb_exists in Hsurj.
    destruct Hsurj as [x [Hx E]]. exists x.
    split; [now apply in_universe_range | now apply Z.eqb_eq].
Qed.

Lemma valid_call_in_universe (p : Cycle.t) (x : Z) :
  valid p -> in_universe p x -> in_universe p (__call__ p x).
Proof.
  intros Hv Hx. rewrite call_get.
  destruct (get x (_map p)) as [v|] eqn:Hg; [|assumption].
  now apply (valid_range p Hv x v).
Qed.

Lemma valid_follow_inv (p : Cycle.t) (start : Z) (rest : list Z) :
  valid p -> range 1 (_dim p + 1) = start :: rest ->
  follow_inv (__call__ p) (range 1 (_dim p + 1)) [] start.
Proof.
  intros Hv Hr. constructor.
  - apply sorted_nodup, range_sorted.
  - rewrite Hr. now left.
  - intros y [].
  - intros y [Hy|[]]. left.
    apply in_universe_range, valid_call_in_universe; [assumption|].
    now apply in_universe_range.
  - intros x y [Hx|[]] [Hy|[]].
    apply (valid_inj p Hv); now apply in_universe_range.
  - simpl. intros y [<-|[]] Hne. congruence.
Qed.

Lemma valid_extraction (p : Cycle.t) :
  valid p -> exists cycles, _create_representation p = Ok cycles.
Proof.
  intros Hv. unfold _create_representation, get_dimension, extract.
  destruct (range 1 (_dim p + 1)) as [|start rest] eqn:Hr; [now eexists|].
  apply follow_returns; [lia|]. rewrite <- Hr. now apply valid_follow_inv with rest.
Qed.

(** C10. On a valid permutation both loops of the extraction come to an
    end without raising: [_create_representation] returns a list of
    cycles, the same for every counter at least the length of the
    working list, so [__repr__] and [decompose] return a string. *)
Theorem extraction_total (p : Cycle.t) :
  valid p ->
  exists cycles,
    _create_representation p = Ok cycles
    /\ (forall n, (List.length (range 1 (get_dimension p + 1)) <= n)%nat ->
                  extract (__call__ p) n (range 1 (get_dimension p + 1)) [] = Ok cycles)
    /\ __repr__ p = Ok (_prettify cycles)
    /\ exists s, decompose p = Ok s.
Proof.
  intros Hv. destruct (valid_extraction p Hv) as [cycles Hc].
  exists cycles. repeat split.
  - assumption.
  - intros n Hn. rewrite <- Hc. unfold _create_representation.
    apply extract_counter; [assumption | lia].
  - unfold __repr__. now rewrite Hc.
  - unfold decompose. rewrite Hc. simpl. now eexists.
Qed.

Lemma extraction_total_witness :
  exists cycles,
    _create_representation (Cycle.mk [(1, 3); (3, 1); (2, 4); (4, 2)] 5) = Ok cycles
    /\ (forall n, (List.length (range 1 (5 + 1)) <= n)%nat ->
                  extract (__call__ (Cycle.mk [(1, 3); (3, 1); (2, 4); (4, 2)] 5)) n
                          (range 1 (5 + 1)) [] = Ok cycles)
    /\ __repr__ (Cycle.mk [(1, 3); (3, 1); (2, 4); (4, 2)] 5) = Ok (_prettify cycles)
    /\ exists s, decompose (Cycle.mk [(1, 3); (3, 1); (2, 4); (4, 2)] 5) = Ok s.
Proof.
  apply (extraction_total (Cycle.mk [(1, 3); (3, 1); (2, 4); (4, 2)] 5)).
  apply valid_b_sound. reflexivity.
Defined.

(** ** A permutation times its inverse *)

Lemma get_inverse_loop (y : Z) (l : list (Z * Z)) :
  forall d,
    match get y (fold_left (fun d kv => set (snd kv) (fst kv) d) l d) with
    | Some k => In (k, y) l \/ get y d = Some k
    | None => (forall k, ~ In (k, y) l) /\ get y d = None
    end.
Proof.
  induction l as [|[k v] l IH]; intros d; simpl.
  - destruct (get y d); [now right | tauto].
  - specialize (IH (set v k d)). simpl in IH.
    destruct (get y _) as [k'|].
    + destruct IH as [H|H]; [tauto|].
      rewrite get_set in H. destruct (Z.eqb_spec y v) as [->|Hne]; [|tauto].
      injection H as <-. left. now left.
    + destruct IH as [Hno H].
      rewrite get_set in H. destruct (Z.eqb_spec y v) as [->|Hne]; [discriminate|].
      split; [|assumption]. intros k0 [E|I]; [congruence | now apply (Hno k0)].
Qed.

Lemma call_inverse_right (a : Cycle.t) (x : Z) :
  valid a -> in_universe a x -> __call__ a (__call__ (inverse a) x) = x.
Proof.
  intros Hv Hx.
  assert (Hfix : (forall k, ~ In (k, x) (_map a)) -> __call__ a x = x).
  { intros Hno. destruct (valid_surj a Hv x Hx) as [w [Hw Hcw]].
    rewrite call_get in Hcw.
    destruct (get w (_map a)) as [v|] eqn:Hg.
    - subst v. apply get_some_in in Hg. now destruct (Hno w).
    - subst w. rewrite call_get. now rewrite Hg. }
  rewrite (call_get (inverse a)). unfold inverse. simpl. rewrite get_strip.
  pose proof (get_inverse_loop x (items (_map a)) empty) as Hl.
  destruct (get x (fold_left _ _ _)) as [k|].
  - destruct Hl as [Hin|Hin]; [|discriminate].
    apply (in_get _ _ _ (valid_wf a Hv)) in Hin.
    destruct (Z.eqb_spec k x) as [->|Hne].
    + rewrite call_get. now rewrite Hin.
    + rewrite call_get. now rewrite Hin.
  - apply Hfix. tauto.
Qed.

Lemma mul_inverse_map (a : Cycle.t) :
  valid a -> _map (__mul__ a (inverse a)) = [].
Proof.
  intros Hv. apply get_all_none. intros x.
  unfold __mul__. simpl. rewrite get_strip, get_mul_loop.
  destruct (mem x _) eqn:Hm; [|reflexivity].
  apply mem_true_iff, in_range in Hm.
  unfold get_dimension, inverse in Hm. simpl in Hm.
  rewrite call_inverse_right; [now rewrite Z.eqb_refl | assumption|].
  unfold in_universe. unfold get_dimension in Hm. lia.
Qed.

Lemma repr_empty_map (d : Z) : __repr__ (Cycle.mk [] d) = Ok "(1)".
Proof.
  unfold __repr__, _create_representation.
  rewrite extract_fixed; [reflexivity | lia |].
  intros x _. reflexivity.
Qed.

(** Without the bijection the product need not be the identity: on the
    mapping [{1:2}] of dimension 2 it stores [{1:2}] again. *)
Example mul_inverse_needs_bijection :
  _map (__mul__ (Cycle.mk [(1, 2)] 2) (inverse (Cycle.mk [(1, 2)] 2))) = [(1, 2)].
Proof. reflexivity. Qed.

(** The parser itself returns such a mapping on a cycle that repeats an
    element: on the parse of ["(1, 2, 1, 3)"] the product with the
    inverse stores [{2:1}], and printing it raises. *)
Lemma mul_inverse_of_parse_not_identity :
  Cycle "(1, 2, 1, 3)" = Ok (Cycle.mk [(1, 3); (2, 1); (3, 1)] 3)
  /\ ~ (_map (__mul__ (Cycle.mk [(1, 3); (2, 1); (3, 1)] 3)
                      (inverse (Cycle.mk [(1, 3); (2, 1); (3, 1)] 3))) = []
        /\ __repr__ (__mul__ (Cycle.mk [(1, 3); (2, 1); (3, 1)] 3)
                             (inverse (Cycle.mk [(1, 3); (2, 1); (3, 1)] 3)))
           = Ok "(1)").
Proof.
  split; [reflexivity|]. intros [H _]. vm_compute in H. discriminate H.
Qed.

(** C7, amended. For a valid permutation [a] (a sparse mapping over
    [1.._dim] that is a bijection of [1.._dim]), the product of [a] and
    its inverse stores no entry and is printed as the identity ["(1)"]. *)
Theorem mul_inverse_is_identity (a : Cycle.t) :
  valid a ->
  _map (__mul__ a (inverse a)) = []
  /\ __repr__ (__mul__ a (inverse a)) = Ok "(1)".
Proof.
  intros Hv. pose proof (mul_inverse_map a Hv) as Hm. split; [assumption|].
  destruct (__mul__ a (inverse a)) as [m d]. simpl in Hm. subst m.
  apply repr_empty_map.
Qed.

Lemma mul_inverse_is_identity_witness :
  _map (__mul__ (Cycle.mk [(1, 4); (4, 3); (3, 2); (2, 1)] 4)
                (inverse (Cycle.mk [(1, 4); (4, 3); (3, 2); (2, 1)] 4))) = []
  /\ __repr__ (__mul__ (Cycle.mk [(1, 4); (4, 3); (3, 2); (2, 1)] 4)
                       (inverse (Cycle.mk [(1, 4); (4, 3); (3, 2); (2, 1)] 4)))
     = Ok "(1)".
Proof.
  apply (mul_inverse_is_identity (Cycle.mk [(1, 4); (4, 3); (3, 2); (2, 1)] 4)).
  apply valid_b_sound. reflexivity.
Defined.

(** ** The permutation built from disjoint cycles *)

Lemma nodup_app_inv {A : Type} (l1 l2 : list A) :
  NoDup (l1 ++ l2) -> NoDup l1 /\ NoDup l2 /\ forall x, In x l1 -> ~ In x l2.
Proof.
  induction l1 as [|a l1 IH]; simpl; intros H.
  - repeat split; [constructor | assumption | tauto].
  - inversion H as [|? ? Ha Hnd]; subst.
    destruct (IH Hnd) as [H1 [H2 H3]]. repeat split.
    + constructor; [|assumption]. intros Hin. apply Ha, in_app_iff. now left.
    + assumption.
    + intros x [<-|Hx] Hx2; [apply Ha, in_app_iff; now right | now apply (H3 x)].
Qed.

Lemma get_single_loop_notin (seq : list Z) :
  forall d x, ~ In x (removelast seq) -> get x (single_loop seq d) = get x d.
Proof.
  induction seq as [|a seq IH]; intros d x Hx; [reflexivity|].
  destruct seq as [|b seq]; [reflexivity|].
  change (single_loop (a :: b :: seq) d) with (single_loop (b :: seq) (set a b d)).
  change (removelast (a :: b :: seq)) with (a :: removelast (b :: seq)) in Hx.
  rewrite IH by (intros H; apply Hx; now right).
  rewrite get_set. destruct (Z.eqb_spec x a) as [->|Hne]; [|reflexivity].
  exfalso. apply Hx. now left.
Qed.

Lemma get_single_loop_at (pre : list Z) :
  forall x y post d,
    ~ In x (removelast (y :: post)) ->
    get x (single_loop (pre ++ x :: y :: post) d) = Some y.
Proof.
  induction pre as [|a pre IH]; intros x y post d Hx.
  - change (single_loop ([] ++ x :: y :: post) d)
      with (single_loop (y :: post) (set x y d)).
    rewrite get_single_loop_notin by assumption.
    now rewrite get_set, Z.eqb_refl.
  - destruct pre as [|b pre].
    + change (single_loop ([a] ++ x :: y :: post) d)
        with (single_loop ([] ++ x :: y :: post) (set a x d)).
      now apply IH.
    + change (single_loop ((a :: b :: pre) ++ x :: y :: post) d)
        with (single_loop ((b :: pre) ++ x :: y :: post) (set a b d)).
      now apply IH.
Qed.

Lemma fold_left_max_ge (l : list Z) :
  forall a, a <= fold_left Z.max l a /\ forall x, In x l -> x <= fold_left Z.max l a.
Proof.
  induction l as [|y l IH]; intros a; simpl.
  - split; [lia | tauto].
  - destruct (IH (Z.max a y)) as [H1 H2]. split; [lia|].
    intros x [<-|Hx]; [lia | now apply H2].
Qed.

Lemma single_cycle_call (c : list Z) (g : Cycle.t) :
  NoDup c -> generate_single_cycle c = Ok g ->
  follows_cycle (__call__ g) c
  /\ (forall x, ~ In x c -> __call__ g x = x)
  /\ (forall x, In x c -> x <= _dim g).
Proof.
  intros Hnd Hg. destruct c as [|first rest]; [discriminate|].
  assert (Hmap : _map g = strip (single_loop ((first :: rest) ++ [first]) empty))
    by (injection Hg as <-; reflexivity).
  assert (Hdim : _dim g = fold_left Z.max rest first)
    by (injection Hg as <-; reflexivity).
  clear Hg. repeat split.
  - intros pre x y post Hc. rewrite call_get, Hmap, get_strip.
    rewrite Hc in *. rewrite <- app_assoc, <- !app_comm_cons.
    apply nodup_app_inv in Hnd. destruct Hnd as [_ [Hnd _]].
    inversion Hnd as [|? ? Hx _]; subst.
    rewrite get_single_loop_at.
    + destruct (Z.eqb_spec y x) as [->|Hne]; [|reflexivity].
      exfalso. apply Hx. now left.
    + rewrite app_comm_cons. now rewrite removelast_last.
  - intros pre x Hc. rewrite call_get, Hmap, get_strip.
    rewrite Hc. rewrite <- app_assoc, <- !app_comm_cons. simpl app.
    rewrite get_single_loop_at by (simpl; tauto).
    replace (hd 0 (pre ++ [x])) with first by (now rewrite <- Hc).
    destruct (Z.eqb_spec first x); congruence.
  - intros x Hx. rewrite call_get, Hmap, get_strip.
    rewrite get_single_loop_notin by now rewrite removelast_last.
    reflexivity.
  - intros x Hx. rewrite Hdim. destruct (fold_left_max_ge rest first) as [H1 H2].
    destruct Hx as [<-|Hx]; [assumption | now apply H2].
Qed.

Lemma follows_cycle_mul_left (g q : Cycle.t) (c : list Z) :
  follows_cycle (__call__ g) c ->
  (forall x, In x c -> __call__ q x = x) ->
  (forall x, In x c -> 1 <= x <= Z.max (_dim g) (_dim q)) ->
  follows_cycle (__call__ (__mul__ g q)) c.
Proof.
  intros [Hstep Hwrap] Hq Hb. split.
  - intros pre x y post Hc. rewrite call_mul.
    assert (Hx : In x c) by (rewrite Hc; apply in_app_iff; right; now left).
    destruct (mem x _) eqn:Hm.
    + rewrite (Hq x Hx). now apply Hstep with pre post.
    + apply mem_false_iff in Hm. exfalso. apply Hm, in_range.
      specialize (Hb x Hx). lia.
  - intros pre x Hc. rewrite call_mul.
    assert (Hx : In x c) by (rewrite Hc; apply in_app_iff; right; now left).
    destruct (mem x _) eqn:Hm.
    + rewrite (Hq x Hx). now apply Hwrap with pre.
    + apply mem_false_iff in Hm. exfalso. apply Hm, in_range.
      specialize (Hb x Hx). lia.
Qed.

Lemma follows_cycle_in (f : Z -> Z) (c : list Z) (x : Z) :
  follows_cycle f c -> In x c -> In (f x) c.
Proof.
  intros [Hstep Hwrap] Hx. apply in_split in Hx. destruct Hx as [pre [post Hc]].
  destruct post as [|y post].
  - rewrite (Hwrap pre x Hc). rewrite Hc. now destruct pre; left.
  - rewrite (Hstep pre x y post Hc). rewrite Hc.
    apply in_app_iff. right. right. now left.
Qed.

Lemma follows_cycle_mul_right (g q : Cycle.t) (c : list Z) :
  follows_cycle (__call__ q) c ->
  (forall x, In x c -> __call__ g x = x) ->
  (forall x, In x c -> 1 <= x <= Z.max (_dim g) (_dim q)) ->
  follows_cycle (__call__ (__mul__ g q)) c.
Proof.
  intros Hf Hg Hb.
  assert (Hcall : forall x, In x c -> __call__ (__mul__ g q) x = __call__ q x).
  { intros x Hx. rewrite call_mul. destruct (mem x _) eqn:Hm.
    - apply Hg. now apply follows_cycle_in.
    - apply mem_false_iff in Hm. exfalso. apply Hm, in_range.
      specialize (Hb x Hx). lia. }
  destruct Hf as [Hstep Hwrap]. split.
  - intros pre x y post Hc. rewrite Hcall; [now apply Hstep with pre post|].
    rewrite Hc. apply in_app_iff. right. now left.
  - intros pre x Hc. rewrite Hcall; [now apply Hwrap with pre|].
    rewrite Hc. apply in_app_iff. right. now left.
Qed.

Lemma nested_product_call (cs : list (list Z)) :
  forall p,
    NoDup (List.concat cs) -> (forall x, In x (List.concat cs) -> 1 <= x) ->
    Forall (fun c => c <> []) cs ->
    nested_product cs = Ok p ->
    (forall c, In c cs -> follows_cycle (__call__ p) c)
    /\ (forall x, ~ In x (List.concat cs) -> __call__ p x = x)
    /\ (forall x, In x (List.concat cs) -> x <= _dim p).
Proof.
  induction cs as [|c cs IH]; intros p Hnd Hpos Hne Hp.
  - injection Hp as <-. split; [intros c []|]. split; [reflexivity | intros x []].
  - simpl in Hnd, Hpos. apply nodup_app_inv in Hnd.
    destruct Hnd as [Hndc [Hndcs Hdisj]].
    inversion Hne as [|? ? Hc Hcs]; subst.
    destruct (single_cycle_ok c Hc) as [g Hg].
    destruct (single_cycle_call c g Hndc Hg) as [Hfg [Hidg Hdimg]].
    destruct cs as [|c2 cs].
    + simpl in Hp. rewrite Hg in Hp. injection Hp as <-.
      simpl. rewrite app_nil_r. split; [|split].
      * intros c' [<-|[]]. assumption.
      * assumption.
      * assumption.
    + remember (c2 :: cs) as cs' eqn:Hcs'.
      assert (Hp' : exists q, nested_product cs' = Ok q /\ p = __mul__ g q).
      { rewrite Hcs' in *. simpl in Hp. simpl. rewrite Hg in Hp. simpl in Hp.
        destruct (match cs with [] => _ | _ => _ end) as [q|e]; simpl in Hp;
          [|discriminate].
        exists q. split; [reflexivity | congruence]. }
      destruct Hp' as [q [Hq ->]].
      destruct (IH q Hndcs (fun x Hx => Hpos x (proj2 (in_app_iff _ _ _) (or_intror Hx)))
                   Hcs Hq) as [Hfq [Hidq Hdimq]].
      assert (Hbound : forall x, In x (c ++ List.concat cs') ->
                                 1 <= x <= Z.max (_dim g) (_dim q)).
      { intros x Hx. split; [now apply Hpos|].
        apply in_app_iff in Hx. destruct Hx as [Hx|Hx].
        - specialize (Hdimg x Hx). lia.
        - specialize (Hdimq x Hx). lia. }
      split; [|split].
      * intros c' [<-|Hc'].
        -- apply follows_cycle_mul_left; [assumption| |].
           ++ intros x Hx. apply Hidq. now apply Hdisj.
           ++ intros x Hx. apply Hbound, in_app_iff. now left.
        -- assert (Hsub : forall x, In x c' -> In x (List.concat cs')).
           { intros x Hx. apply in_concat. now exists c'. }
           apply follows_cycle_mul_right; [now apply Hfq| |].
           ++ intros x Hx. apply Hidg. intros Hxc.
              now apply (Hdisj x Hxc), Hsub.
           ++ intros x Hx. apply Hbound, in_app_iff. right. now apply Hsub.
      * intros x Hx. simpl in Hx. rewrite in_app_iff in Hx.
        rewrite call_mul. destruct (mem x _); [|reflexivity].
        rewrite Hidq by tauto. apply Hidg. tauto.
      * intros x Hx. simpl in Hx. specialize (Hbound x Hx).
        change (_dim (__mul__ g q)) with (Z.max (_dim g) (_dim q)). lia.
Qed.

(** ** The extraction recovers canonical cycles *)

Section Recover.

Variable f : Z -> Z.

Lemma follow_cycle_run (post : list Z) :
  forall pre cur n T acc,
    NoDup (pre ++ cur :: post) ->
    follows_cycle f (pre ++ cur :: post) ->
    (2 <= List.length (pre ++ cur :: post))%nat ->
    StronglySorted Z.lt T ->
    (forall y, In y (cur :: post) -> In y T) ->
    (List.length T <= n)%nat ->
    exists n' T',
      follow f n T acc pre cur = extract f n' T' (acc ++ [pre ++ cur :: post])
      /\ (List.length T' <= n')%nat
      /\ (List.length T' < List.length T)%nat
      /\ StronglySorted Z.lt T'
      /\ (forall z, In z T' <-> In z T /\ ~ In z (cur :: post)).
Proof.
  induction post as [|y post IH]; intros pre cur n T acc Hnd Hf Hlen Hs HT Hn.
  - destruct (list_remove_in cur T (HT cur (or_introl eq_refl))) as [T1 Hr].
    pose proof (list_remove_length _ _ _ Hr) as Hl.
    destruct (list_remove_spec _ _ _ (sorted_nodup _ Hs) Hr) as [_ Hin].
    destruct n as [|n]; [lia|].
    exists n, T1. split; [|split; [|split; [|split]]].
    + simpl. rewrite Hr. simpl.
      rewrite (proj2 Hf pre cur eq_refl).
      assert (Hm : mem (hd 0 (pre ++ [cur])) (pre ++ [cur]) = true).
      { apply mem_true_iff. destruct pre; now left. }
      rewrite Hm.
      assert (Hlong : (1 <? Z.of_nat (List.length (pre ++ [cur]))) = true)
        by (apply Z.ltb_lt; lia).
      rewrite Hlong. reflexivity.
    + lia.
    + lia.
    + now apply list_remove_sorted with cur T.
    + intros z. rewrite Hin. simpl. intuition congruence.
  - destruct (list_remove_in cur T (HT cur (or_introl eq_refl))) as [T1 Hr].
    pose proof (list_remove_length _ _ _ Hr) as Hl.
    destruct (list_remove_spec _ _ _ (sorted_nodup _ Hs) Hr) as [_ Hin].
    assert (Hcur : ~ In cur (y :: post)).
    { apply nodup_app_inv in Hnd. destruct Hnd as [_ [Hnd _]].
      now inversion Hnd. }
    destruct n as [|n]; [lia|].
    assert (Heq : pre ++ cur :: y :: post = (pre ++ [cur]) ++ y :: post)
      by now rewrite <- app_assoc.
    destruct (IH (pre ++ [cur]) y n T1 acc) as [n' [T' [Hrun [H1 [H2 [H3 H4]]]]]].
    + now rewrite <- Heq.
    + now rewrite <- Heq.
    + now rewrite <- Heq.
    + now apply list_remove_sorted with cur T.
    + intros z Hz. apply Hin. split; [apply HT; now right|].
      intros ->. now apply Hcur.
    + lia.
    + exists n', T'. split; [|split; [|split; [|split]]].
      * simpl. rewrite Hr. simpl.
        rewrite (proj1 Hf pre cur y post eq_refl).
        assert (Hm : mem y (pre ++ [cur]) = false).
        { apply mem_false_iff. intros Hy.
          rewrite Heq in Hnd. apply nodup_app_inv in Hnd.
          destruct Hnd as [_ [_ Hd]]. apply (Hd y Hy). now left. }
        rewrite Hm, Hrun, Heq. reflexivity.
      * assumption.
      * lia.
      * assumption.
      * intros z. rewrite H4, Hin.
        change (In z (cur :: y :: post)) with (cur = z \/ In z (y :: post)).
        intuition congruence.
Qed.

Lemma extract_canonical (k : nat) :
  forall T n cs acc,
    (List.length T <= k)%nat -> (List.length T <= n)%nat ->
    StronglySorted Z.lt T ->
    NoDup (List.concat cs) ->
    Forall (fun c => (2 <= List.length c)%nat) cs ->
    Forall (fun c => forall x, In x c -> hd 0 c <= x) cs ->
    StronglySorted Z.lt (map (hd 0) cs) ->
    (forall c, In c cs -> follows_cycle f c) ->
    (forall x, In x T -> ~ In x (List.concat cs) -> f x = x) ->
    (forall x, In x (List.concat cs) -> In x T) ->
    extract f n T acc = Ok (acc ++ cs).
Proof.
  induction k as [|k IH];
    intros T n cs acc Hk Hn Hs Hnd Hlong Hmin Hheads Hf Hfix Hsub.
  - destruct T; [|simpl in Hk; lia].
    destruct cs as [|[|x c] cs].
    + now rewrite app_nil_r.
    + inversion Hlong; subst. simpl in *. lia.
    + destruct (Hsub x). now left.
  - destruct T as [|x T0].
    { destruct cs as [|[|y c] cs].
      - now rewrite app_nil_r.
      - inversion Hlong; subst. simpl in *. lia.
      - destruct (Hsub y). now left. }
    inversion Hs as [|? ? Hs0 Hall]; subst. rewrite Forall_forall in Hall.
    destruct (in_dec Z.eq_dec x (List.concat cs)) as [Hx|Hx].
    + (* [x] opens the first cycle *)
      destruct cs as [|c cs]; [destruct Hx|].
      inversion Hlong as [|? ? Hc2 Hlong']; subst.
      inversion Hmin as [|? ? Hcmin Hmin']; subst.
      simpl in Hheads. inversion Hheads as [|? ? Hheads' Hlt]; subst.
      rewrite Forall_forall in Hlt.
      destruct c as [|h post]; [simpl in Hc2; lia|].
      change (NoDup ((h :: post) ++ List.concat cs)) in Hnd.
      apply nodup_app_inv in Hnd. destruct Hnd as [Hndc [Hndcs Hdisj]].
      assert (HhT : In h (x :: T0)) by (apply Hsub; now left).
      assert (Hxh : x = h).
      { destruct HhT as [E|HhT]; [assumption|].
        specialize (Hall h HhT).
        apply in_concat in Hx. destruct Hx as [c' [Hc' Hxc']].
        destruct Hc' as [<-|Hc'].
        - specialize (Hcmin x Hxc'). simpl in Hcmin. lia.
        - assert (Hh' : In (hd 0 c') (map (hd 0) cs)) by now apply in_map.
          specialize (Hlt _ Hh').
          rewrite Forall_forall in Hmin'. specialize (Hmin' c' Hc' x Hxc').
          simpl in Hlt. lia. }
      subst h.
      destruct (follow_cycle_run post [] x n (x :: T0) acc)
        as [n' [T' [Hrun [H1 [H2 [H3 H4]]]]]]; try assumption.
      * apply Hf. now left.
      * intros y Hy. apply Hsub. apply in_app_iff. now left.
      * unfold extract at 1. rewrite Hrun.
        change ([] ++ x :: post) with (x :: post).
        replace (acc ++ (x :: post) :: cs) with ((acc ++ [x :: post]) ++ cs)
          by now rewrite <- app_assoc.
        apply IH; try assumption.
        -- simpl in *. lia.
        -- intros c' Hc'. apply Hf. now right.
        -- intros z Hz Hzcs. apply H4 in Hz. destruct Hz as [Hz Hzc].
           apply Hfix; [assumption|].
           simpl. rewrite in_app_iff. simpl in Hzc. tauto.
        -- intros z Hz. apply H4. split.
           ++ apply Hsub. change (In z ((x :: post) ++ List.concat cs)).
              apply in_app_iff. now right.
           ++ intros Hzc. now apply (Hdisj z).
    + (* [x] is a fixed point *)
      destruct n as [|n]; [simpl in Hn; lia|].
      assert (Hstep : extract f (S n) (x :: T0) acc = extract f n T0 acc).
      { simpl. rewrite Z.eqb_refl. simpl.
        rewrite (Hfix x (or_introl eq_refl) Hx). unfold mem. simpl.
        rewrite Z.eqb_refl. simpl. reflexivity. }
      rewrite Hstep. apply IH; try assumption.
      * simpl in Hk. lia.
      * simpl in Hn. lia.
      * intros z Hz. apply Hfix. now right.
      * intros z Hz. destruct (Hsub z Hz) as [E|I]; [congruence | assumption].
Qed.

End Recover.

Lemma canonical_nonempty (cs : list (list Z)) :
  Forall (fun c => (2 <= List.length c)%nat) cs -> Forall (fun c => c <> []) cs.
Proof.
  intros H. eapply Forall_impl; [|exact H].
  intros c Hc E. subst c. simpl in Hc. lia.
Qed.

Lemma canonical_extraction (cs : list (list Z)) (p : Cycle.t) :
  canonical cs -> nested_product cs = Ok p -> _create_representation p = Ok cs.
Proof.
  intros [Hpos Hnd Hlong Hmin Hheads] Hp.
  destruct (nested_product_call cs p Hnd Hpos (canonical_nonempty cs Hlong) Hp)
    as [Hf [Hid Hdim]].
  unfold _create_representation, get_dimension.
  change (Ok cs) with (Ok (A := list (list Z)) ([] ++ cs)).
  apply extract_canonical with (k := List.length (range 1 (_dim p + 1)));
    try assumption; try lia.
  - apply range_sorted.
  - intros x _ Hx. now apply Hid.
  - intros x Hx. apply in_range. specialize (Hpos x Hx). specialize (Hdim x Hx). lia.
Qed.

(** ** Strings: cutting what was joined *)

Lemma append_assoc (s1 s2 s3 : string) :
  ((s1 ++ s2) ++ s3 = s1 ++ (s2 ++ s3))%string.
Proof. induction s1 as [|c s1 IH]; simpl; [reflexivity | now rewrite IH]. Qed.

Lemma append_nil_r (s : string) : (s ++ "" = s)%string.
Proof. induction s as [|c s IH]; simpl; [reflexivity | now rewrite IH]. Qed.

Lemma all_chars_append (P : ascii -> bool) (s1 s2 : string) :
  all_chars P (s1 ++ s2)%string = all_chars P s1 && all_chars P s2.
Proof.
  induction s1 as [|c s1 IH]; simpl; [reflexivity|].
  now rewrite IH, andb_assoc.
Qed.

Lemma all_chars_weaken (P Q : ascii -> bool) (s : string) :
  (forall c, P c = true -> Q c = true) ->
  all_chars P s = true -> all_chars Q s = true.
Proof.
  intros HPQ. induction s as [|c s IH]; simpl; [reflexivity|].
  intros H. apply andb_prop in H. destruct H as [Hc Hs].
  now rewrite (HPQ c Hc), IH.
Qed.

Lemma prefix_append (s rest : string) : prefix s (s ++ rest)%string = true.
Proof.
  induction s as [|c s IH]; simpl.
  - now destruct rest.
  - destruct (ascii_dec c c); [assumption | congruence].
Qed.

Section Split.

Variable c0 : ascii.
Variable sep' : string.
Let sep : string := String c0 sep'.

Lemma split_aux_skip (q : string) :
  forall cur rest,
    split_aux sep (String.length q) cur (q ++ rest)%string = split_aux sep 0 cur rest.
Proof.
  induction q as [|c q IH]; intros cur rest; simpl.
  - now destruct rest.
  - apply IH.
Qed.

Lemma split_aux_free (p : string) :
  forall cur rest,
    all_chars (differs c0) p = true ->
    split_aux sep 0 cur (p ++ rest)%string = split_aux sep 0 (cur ++ p)%string rest.
Proof.
  induction p as [|c p IH]; intros cur rest Hp; simpl.
  - now rewrite append_nil_r.
  - simpl in Hp. apply andb_prop in Hp. destruct Hp as [Hc Hp].
    unfold differs in Hc. apply negb_true_iff, Ascii.eqb_neq in Hc.
    destruct (ascii_dec c0 c) as [E|_]; [congruence|].
    rewrite IH by assumption. now rewrite append_assoc.
Qed.

Lemma split_aux_sep (cur rest : string) :
  split_aux sep 0 cur (sep ++ rest)%string = cur :: split_aux sep 0 "" rest.
Proof.
  unfold sep at 2. change (String c0 sep' ++ rest)%string
    with (String c0 (sep' ++ rest)%string).
  cbn [split_aux].
  change (String c0 (sep' ++ rest)%string) with (sep ++ rest)%string.
  rewrite prefix_append. f_equal.
  replace (String.length sep - 1)%nat with (String.length sep')
    by (unfold sep; simpl; lia).
  apply split_aux_skip.
Qed.

Lemma split_join (p : string) (ps : list string) :
  Forall (fun s => all_chars (differs c0) s = true) (p :: ps) ->
  split sep (join sep (p :: ps)) = p :: ps.
Proof.
  unfold split. revert p. induction ps as [|q ps IH]; intros p Hall.
  - simpl. rewrite <- (append_nil_r p) at 1.
    inversion Hall; subst. now rewrite split_aux_free.
  - inversion Hall as [|? ? Hp Hrest]; subst.
    change (join sep (p :: q :: ps)) with (p ++ sep ++ join sep (q :: ps))%string.
    rewrite split_aux_free by assumption.
    rewrite split_aux_sep. simpl append. f_equal. now apply IH.
Qed.

End Split.

Lemma drop_last_append (body : string) (c : ascii) :
  drop_last (body ++ String c "")%string = body.
Proof.
  induction body as [|b body IH]; [reflexivity|].
  simpl. rewrite IH. now destruct body.
Qed.

Lemma rstrip_no_space (s : string) :
  all_chars (fun c => negb (is_space c)) s = true -> rstrip s = s.
Proof.
  induction s as [|c s IH]; simpl; [reflexivity|].
  intros H. apply andb_prop in H. destruct H as [Hc Hs].
  rewrite (IH Hs). apply negb_true_iff in Hc. rewrite Hc. now destruct s.
Qed.

Lemma lstrip_no_space (s : string) :
  all_chars (fun c => negb (is_space c)) s = true -> lstrip s = s.
Proof.
  destruct s as [|c s]; simpl; [reflexivity|].
  intros H. apply andb_prop in H. destruct H as [Hc _].
  apply negb_true_iff in Hc. now rewrite Hc.
Qed.

(** ** Decimal literals *)

Lemma numeric_not_space (c : ascii) :
  is_numeric c = true -> negb (is_space c) = true.
Proof. destruct c as [[] [] [] [] [] [] [] []]; vm_compute; congruence. Qed.

Lemma numeric_not_comma (c : ascii) :
  is_numeric c = true -> differs "," c = true.
Proof. destruct c as [[] [] [] [] [] [] [] []]; vm_compute; congruence. Qed.

Lemma numeric_not_paren (c : ascii) :
  is_numeric c = true -> differs ")" c = true.
Proof. destruct c as [[] [] [] [] [] [] [] []]; vm_compute; congruence. Qed.

Lemma uint_numeric (u : Decimal.uint) :
  all_chars is_numeric (NilEmpty.string_of_uint u) = true.
Proof. induction u; simpl; try rewrite IHu; reflexivity. Qed.

Lemma str_numeric (n : Z) : all_chars is_numeric (str n) = true.
Proof.
  unfold str. destruct (Z.to_int n) as [u|u]; simpl.
  - destruct u; try apply uint_numeric. reflexivity.
  - destruct u; try apply uint_numeric. reflexivity.
Qed.

Lemma str_nonempty (n : Z) : str n <> "".
Proof.
  unfold str. destruct (Z.to_int n) as [u|u]; simpl; [|discriminate].
  destruct u; discriminate.
Qed.

Lemma strip_ws_str (n : Z) : strip_ws (str n) = str n.
Proof.
  pose proof (all_chars_weaken _ _ _ numeric_not_space (str_numeric n)) as H.
  unfold strip_ws. now rewrite (lstrip_no_space _ H), (rstrip_no_space _ H).
Qed.

Lemma int_digits_uint (u : Decimal.uint) :
  int_digits true (NilEmpty.string_of_uint u) = Some u
  /\ (u <> Decimal.Nil -> int_digits false (NilEmpty.string_of_uint u) = Some u).
Proof.
  induction u as [|u [IH _]|u [IH _]|u [IH _]|u [IH _]|u [IH _]
                  |u [IH _]|u [IH _]|u [IH _]|u [IH _]|u [IH _]];
    simpl; try rewrite IH; split; try reflexivity; congruence.
Qed.

Lemma int_str (n : Z) : int (str n) = Ok n.
Proof.
  unfold int. rewrite strip_ws_str. unfold str.
  rewrite <- (DecimalZ.of_to n) at 2.
  destruct (Z.to_int n) as [u|u] eqn:Hn.
  - assert (Hu : u <> Decimal.Nil).
    { intros ->. destruct n; simpl in Hn; try discriminate.
      injection Hn as Hn. now apply (DecimalPos.Unsigned.to_uint_nonnil p). }
    pose proof (proj2 (int_digits_uint u) Hu) as Hd.
    destruct u; try congruence; simpl in *; now rewrite Hd.
  - assert (Hu : u <> Decimal.Nil).
    { intros ->. destruct n; simpl in Hn; try discriminate.
      injection Hn as Hn. now apply (DecimalPos.Unsigned.to_uint_nonnil p). }
    pose proof (proj2 (int_digits_uint u) Hu) as Hd.
    destruct u; try congruence; simpl in *; now rewrite Hd.
Qed.

(** ** Parsing a rendered text *)

Lemma join_comma_space (t : string) (r : list string) :
  String " " (join ", " (t :: r)) = join "," (String " " t :: map (String " ") r).
Proof.
  revert t. induction r as [|u r IH]; intros t; [reflexivity|].
  change (join ", " (t :: u :: r)) with (t ++ ", " ++ join ", " (u :: r))%string.
  change (join "," (String " " t :: map (String " ") (u :: r)))
    with (String " " t ++ "," ++ join "," (String " " u :: map (String " ") r))%string.
  rewrite <- IH. reflexivity.
Qed.

Lemma join_comma (t : string) (r : list string) :
  join ", " (t :: r) = join "," (t :: map (String " ") r).
Proof.
  destruct r as [|u r]; [reflexivity|].
  change (join ", " (t :: u :: r)) with (t ++ "," ++ String " " (join ", " (u :: r)))%string.
  now rewrite join_comma_space.
Qed.

Lemma strip_ws_padded (n : Z) : strip_ws (String " " (str n)) = str n.
Proof. exact (strip_ws_str n). Qed.

Lemma str_no_comma (n : Z) : all_chars (differs ",") (str n) = true.
Proof. exact (all_chars_weaken _ _ _ numeric_not_comma (str_numeric n)). Qed.

Lemma filter_nonblank (l : list string) :
  Forall (fun s => strip_ws s <> "") l ->
  filter (fun x => negb (String.eqb (strip_ws x) "")) l = l.
Proof.
  induction 1 as [|s l Hs _ IH]; simpl; [reflexivity|].
  destruct (String.eqb_spec (strip_ws s) "") as [E|_]; [congruence|].
  simpl. now rewrite IH.
Qed.

Lemma tokens_of_rendered (x : Z) (c : list Z) :
  tokens_of (join ", " (map str (x :: c))) = map str (x :: c).
Proof.
  unfold tokens_of. change (map str (x :: c)) with (str x :: map str c).
  rewrite join_comma.
  rewrite (split_join "," "").
  - rewrite filter_nonblank.
    + cbn [map]. rewrite strip_ws_str. f_equal.
      induction c as [|y c IH]; [reflexivity|].
      cbn [map]. now rewrite strip_ws_padded, IH.
    + constructor; [rewrite strip_ws_str; apply str_nonempty|].
      induction c as [|y c IH]; cbn [map]; constructor; [|assumption].
      rewrite strip_ws_padded. apply str_nonempty.
  - constructor; [apply str_no_comma|].
    induction c as [|y c IH]; cbn [map]; constructor; [|assumption].
    simpl. apply str_no_comma.
Qed.

Lemma mapM_int_str (c : list Z) : mapM int (map str c) = Ok c.
Proof.
  induction c as [|x c IH]; simpl; [reflexivity|].
  now rewrite int_str, IH.
Qed.

Lemma rendered_no_paren (c : list Z) :
  all_chars (differs ")") (join ", " (map str c)) = true.
Proof.
  assert (Hs : forall n, all_chars (differs ")") (str n) = true).
  { intros n. exact (all_chars_weaken _ _ _ numeric_not_paren (str_numeric n)). }
  induction c as [|x c IH]; [reflexivity|].
  destruct c as [|y c]; [apply Hs|].
  change (join ", " (map str (x :: y :: c)))
    with (str x ++ ", " ++ join ", " (map str (y :: c)))%string.
  rewrite !all_chars_append, Hs, IH. reflexivity.
Qed.

Lemma read_cycles_rendered (cs : list (list Z)) :
  Forall (fun c => c <> []) cs ->
  read_cycles (map (join ", ") (map (map str) cs)) = Ok cs.
Proof.
  induction 1 as [|c cs Hc _ IH]; [reflexivity|].
  destruct c as [|x c]; [congruence|].
  cbn [map read_cycles]. 
  change (str x :: map str c) with (map str (x :: c)).
  rewrite tokens_of_rendered.
  change (map str (x :: c)) with (str x :: map str c) at 1.
  cbv iota. rewrite mapM_int_str, IH. reflexivity.
Qed.

Lemma join_starts (sep s : string) (l : list string) :
  s <> "" -> exists a b, join sep (s :: l) = String a b.
Proof.
  destruct s as [|a b]; [congruence|]. intros _.
  destruct l; simpl; eauto.
Qed.

Lemma prettify_shape (c : list Z) (cs : list (list Z)) :
  c <> [] ->
  _prettify (c :: cs) =
  ("(" ++ join ")(" (map (join ", ") (map (map str) (c :: cs))) ++ ")")%string.
Proof.
  intros Hc. unfold _prettify.
  destruct c as [|x c]; [congruence|].
  cbn [map].
  destruct (join_starts ", " (str x) (map str c) (str_nonempty x)) as [a [b Hx]].
  assert (Hne : join ", " (str x :: map str c) <> "") by (rewrite Hx; discriminate).
  destruct (join_starts ")(" _ (map (join ", ") (map (map str) cs)) Hne)
    as [a' [b' Hb]].
  rewrite Hb. simpl.
  destruct (Ascii.eqb a' ")"); [|reflexivity].
  now destruct b'.
Qed.

Lemma parse_rendered (c : list Z) (cs : list (list Z)) :
  Forall (fun c => c <> []) (c :: cs) ->
  Cycle (_prettify (c :: cs)) = nested_product (c :: cs).
Proof.
  intros Hne. apply parse_nested_product.
  inversion Hne as [|? ? Hc Hcs]; subst.
  rewrite prettify_shape by assumption.
  change ("(" ++ ?b ++ ")")%string with (String "(" (b ++ ")")%string).
  unfold slice_1_m1. rewrite drop_last_append.
  cbn [map]. rewrite (split_join ")" "(").
  - now apply (read_cycles_rendered (c :: cs)).
  - clear. change (Forall (fun s => all_chars (differs ")") s = true)
                          (map (join ", ") (map (map str) (c :: cs)))).
    induction (c :: cs) as [|d ds IH]; simpl; constructor; [|assumption].
    apply rendered_no_paren.
Qed.

(** ** Round trip *)

Lemma rotated_cycle_not_restored :
  ~ (forall cs, ascending_heads cs ->
                (p <- Cycle (_prettify cs) ;; __repr__ p) = Ok (_prettify cs)).
Proof.
  intros H. specialize (H [[2; 3; 1]]).
  assert (Ha : ascending_heads [[2; 3; 1]]).
  { constructor.
    - simpl. intros x Hx. lia.
    - simpl. repeat constructor; simpl; intuition lia.
    - repeat constructor.
    - repeat constructor. }
  specialize (H Ha). vm_compute in H. discriminate H.
Qed.

(** C4, amended. A text that lists disjoint cycles of positive integers,
    none of them a singleton, every cycle written from its smallest
    element and the cycles in ascending order of that element, is
    printed back unchanged after parsing. *)
Theorem canonical_round_trip (cs : list (list Z)) :
  canonical cs ->
  (p <- Cycle (_prettify cs) ;; __repr__ p) = Ok (_prettify cs).
Proof.
  intros Hc. destruct cs as [|c cs]; [reflexivity|].
  pose proof (canonical_nonempty _ (canon_long _ Hc)) as Hne.
  rewrite (parse_rendered c cs Hne).
  destruct (nested_product_ok _ Hne) as [p Hp]. rewrite Hp. simpl.
  unfold __repr__. now rewrite (canonical_extraction _ p Hc Hp).
Qed.

Lemma canonical_round_trip_witness :
  (p <- Cycle "(1, 5, 2)(3, 12, 4)" ;; __repr__ p) = Ok "(1, 5, 2)(3, 12, 4)".
Proof.
  apply (canonical_round_trip [[1; 5; 2]; [3; 12; 4]]).
  constructor.
  - simpl. intros x Hx. lia.
  - simpl. repeat constructor; simpl; intuition lia.
  - repeat constructor.
  - repeat constructor; simpl; intros x Hx; lia.
  - repeat constructor.
Defined.

(** ** Which dictionaries an operation touches *)

Lemma strip_sparse_id (m : dict) : sparse m -> strip m = m.
Proof.
  intros Hs. unfold strip.
  assert (H : forall ks, fold_left strip_step ks m = m).
  { induction ks as [|k ks IH]; simpl; [reflexivity|].
    unfold strip_step at 2. destruct (get k m) as [v|] eqn:Hg; [|assumption].
    destruct (Z.eqb_spec v k) as [->|_]; [now destruct (Hs k k Hg) | assumption]. }
  apply H.
Qed.

Lemma update_length (l : Heap.loc) (d : dict) (s : Heap.store) :
  List.length (Heap.update l d s) = List.length s.
Proof.
  revert l. induction s as [|d' s IH]; intros l; [reflexivity|].
  destruct l; simpl; [reflexivity | now rewrite IH].
Qed.

Lemma nth_update_same (l : Heap.loc) (d : dict) (s : Heap.store) :
  (l < List.length s)%nat -> nth l (Heap.update l d s) empty = d.
Proof.
  revert l. induction s as [|d' s IH]; intros l Hl; [simpl in Hl; lia|].
  destruct l; simpl; [reflexivity|]. apply IH. simpl in Hl. lia.
Qed.

Lemma nth_update_other (l l' : Heap.loc) (d : dict) (s : Heap.store) :
  l' <> l -> nth l' (Heap.update l d s) empty = nth l' s empty.
Proof.
  revert l l'. induction s as [|d' s IH]; intros l l' Hne; [reflexivity|].
  destruct l, l'; simpl; try reflexivity; try congruence.
  apply IH. congruence.
Qed.

Lemma update_update (l : Heap.loc) (d1 d2 : dict) (s : Heap.store) :
  Heap.update l d2 (Heap.update l d1 s) = Heap.update l d2 s.
Proof.
  revert l. induction s as [|d' s IH]; intros l; [reflexivity|].
  destruct l; simpl; [reflexivity | now rewrite IH].
Qed.

Lemma update_nth (l : Heap.loc) (s : Heap.store) :
  Heap.update l (nth l s empty) s = s.
Proof.
  revert l. induction s as [|d' s IH]; intros l; [reflexivity|].
  destruct l; simpl; [reflexivity | now rewrite IH].
Qed.

Lemma update_last (s : Heap.store) (d d' : dict) :
  Heap.update (List.length s) d' (s ++ [d]) = s ++ [d'].
Proof. induction s as [|d0 s IH]; simpl; [reflexivity | now rewrite IH]. Qed.

Lemma nth_last (s : Heap.store) (d : dict) : nth (List.length s) (s ++ [d]) empty = d.
Proof. induction s as [|d0 s IH]; simpl; [reflexivity | assumption]. Qed.

Lemma nth_after (s : Heap.store) (d d1 d2 : dict) :
  nth (List.length (s ++ [d])) (s ++ [d1] ++ [d2]) empty = d2.
Proof. induction s as [|d0 s IH]; simpl; [reflexivity | assumption]. Qed.

Lemma nth_extended (s t : Heap.store) (l : Heap.loc) :
  (l < List.length s)%nat -> nth l (s ++ t) empty = nth l s empty.
Proof. intros Hl. now apply app_nth1. Qed.

Lemma heap_strip_body (r : Heap.loc) (k : Z) (s : Heap.store) :
  Heap.strip_body r k s = (tt, Heap.update r (strip_step (nth r s empty) k) s).
Proof.
  unfold Heap.strip_body, Heap.seq_, Heap.read, strip_step.
  destruct (get k (nth r s empty)) as [v|];
    [destruct (v =? k)|]; unfold Heap.write, Heap.ret;
    try reflexivity; now rewrite update_nth.
Qed.

Lemma heap_strip_loop (r : Heap.loc) (ks : list Z) :
  forall s,
    (r < List.length s)%nat ->
    Heap.for_each ks (Heap.strip_body r) s
    = (tt, Heap.update r (fold_left strip_step ks (nth r s empty)) s).
Proof.
  induction ks as [|k ks IH]; intros s Hr.
  - simpl. unfold Heap.ret. now rewrite update_nth.
  - cbn [Heap.for_each fold_left]. unfold Heap.seq_.
    rewrite heap_strip_body, IH by now rewrite update_length.
    now rewrite nth_update_same, update_update.
Qed.

Lemma heap_init_some (r : Heap.loc) (d : Z) (s : Heap.store) :
  (r < List.length s)%nat ->
  Heap.__init__ (Some r) d s =
  (Heap.mk_obj (List.length s) d,
   Heap.update r (strip (nth r s empty)) s ++ [strip (nth r s empty)]).
Proof.
  intros Hr. unfold Heap.__init__.
  unfold Heap.seq_ at 1. unfold Heap.read at 1.
  unfold Heap.seq_ at 1. rewrite heap_strip_loop by assumption.
  unfold Heap.seq_, Heap.read, Heap.alloc, Heap.ret.
  rewrite nth_update_same by assumption. now rewrite update_length.
Qed.

Lemma heap_call (o : Heap.obj) (x : Z) (s : Heap.store) :
  Heap.__call__ o x s = (__call__ (Heap.value_of s o) x, s).
Proof. reflexivity. Qed.

Lemma heap_mul_body (a b : Heap.obj) (s : Heap.store) (x : Z) (d : dict) :
  (Heap.map_ref a < List.length s)%nat -> (Heap.map_ref b < List.length s)%nat ->
  Heap.mul_body a b (List.length s) x (s ++ [d])
  = (tt, s ++ [set x (__call__ (Heap.value_of s a) (__call__ (Heap.value_of s b) x)) d]).
Proof.
  intros Ha Hb. unfold Heap.mul_body, Heap.seq_.
  rewrite !heap_call. unfold Heap.read, Heap.write.
  rewrite nth_last, update_last. unfold Heap.value_of.
  now rewrite !nth_extended by assumption.
Qed.

Lemma heap_mul_loop (a b : Heap.obj) (s : Heap.store) (to_check : list Z) :
  (Heap.map_ref a < List.length s)%nat -> (Heap.map_ref b < List.length s)%nat ->
  forall d,
    Heap.for_each to_check (Heap.mul_body a b (List.length s)) (s ++ [d])
    = (tt, s ++ [mul_loop (Heap.value_of s a) (Heap.value_of s b) to_check d]).
Proof.
  intros Ha Hb. induction to_check as [|x l IH]; intros d; [reflexivity|].
  cbn [Heap.for_each]. unfold Heap.seq_.
  rewrite heap_mul_body by assumption. now rewrite IH.
Qed.

Lemma heap_mul (a b : Heap.obj) (s : Heap.store) :
  (Heap.map_ref a < List.length s)%nat -> (Heap.map_ref b < List.length s)%nat ->
  exists o t,
    Heap.__mul__ a b s = (o, s ++ t)
    /\ Heap.value_of (s ++ t) o = __mul__ (Heap.value_of s a) (Heap.value_of s b).
Proof.
  intros Ha Hb. unfold Heap.__mul__.
  unfold Heap.seq_ at 1. unfold Heap.alloc at 1.
  unfold Heap.seq_ at 1. rewrite (heap_mul_loop a b s _ Ha Hb).
  rewrite heap_init_some by (rewrite length_app; simpl; lia).
  rewrite nth_last, update_last.
  eexists. eexists. split.
  - rewrite <- app_assoc. reflexivity.
  - unfold Heap.value_of. simpl Heap.map_ref.
    rewrite nth_after. reflexivity.
Qed.

Lemma heap_inverse (a : Heap.obj) (s : Heap.store) :
  (Heap.map_ref a < List.length s)%nat ->
  exists o t,
    Heap.inverse a s = (o, s ++ t)
    /\ Heap.value_of (s ++ t) o = inverse (Heap.value_of s a).
Proof.
  intros Ha. unfold Heap.inverse.
  unfold Heap.seq_ at 1. unfold Heap.read at 1.
  unfold Heap.seq_ at 1. unfold Heap.alloc at 1.
  rewrite heap_init_some by (rewrite length_app; simpl; lia).
  rewrite nth_last, update_last.
  eexists. eexists. split.
  - rewrite <- app_assoc. reflexivity.
  - unfold Heap.value_of. simpl Heap.map_ref.
    rewrite nth_after. reflexivity.
Qed.

Lemma constructor_pops_from_argument :
  ~ (forall (s : Heap.store) (r : Heap.loc) (d : Z),
        (r < List.length s)%nat ->
        nth r (snd (Heap.__init__ (Some r) d s)) empty = nth r s empty).
Proof.
  intros H. specialize (H [[(1, 1); (2, 3); (3, 2)]] 0%nat 3).
  simpl in H. specialize (H (Nat.lt_0_succ 0)). discriminate H.
Qed.

(** C9. Constructing a permutation from a raw dictionary should leave
    that dictionary as it was. The constructor does not: called on the
    dictionary [{1:1, 2:3, 3:2}] (address 0 of the store) it pops the key
    1 from it before it copies it, so the caller is left with
    [{2:3, 3:2}], the same content as the copy the instance holds. *)
Theorem constructor_mutates_argument :
  Heap.__init__ (Some 0%nat) 3 [[(1, 1); (2, 3); (3, 2)]]
  = (Heap.mk_obj 1%nat 3, [[(2, 3); (3, 2)]; [(2, 3); (3, 2)]])
  /\ nth 0 (snd (Heap.__init__ (Some 0%nat) 3 [[(1, 1); (2, 3); (3, 2)]])) empty
     <> nth 0 [[(1, 1); (2, 3); (3, 2)]] empty.
Proof.
  split; [reflexivity|]. simpl. discriminate.
Qed.



(** * Further properties of the code *)

(** ** The product outside its universe *)

Lemma mul_keys_in_universe (a b : Cycle.t) (k v : Z) :
  get k (_map (__mul__ a b)) = Some v ->
  1 <= k <= Z.max (_dim a) (_dim b) /\ v = __call__ a (__call__ b k) /\ v <> k.
Proof.
  unfold __mul__, get_dimension. simpl. rewrite get_strip, get_mul_loop.
  destruct (mem k _) eqn:Hm; [|discriminate].
  apply mem_true_iff, in_range in Hm.
  destruct (Z.eqb_spec (__call__ a (__call__ b k)) k); [discriminate|].
  intros [= <-]. split; [lia|]. split; [reflexivity | assumption].
Qed.

(** X1. The product only stores keys of [1..max(dim a, dim b)], each with
    the image [a(b(k))], and it fixes every integer outside that range,
    whatever the operands do there. *)
Theorem product_confined_to_universe (a b : Cycle.t) :
  (forall k v, get k (_map (__mul__ a b)) = Some v ->
               1 <= k <= get_dimension (__mul__ a b)
               /\ v = __call__ a (__call__ b k))
  /\ (forall x, ~ (1 <= x <= get_dimension (__mul__ a b)) ->
                __call__ (__mul__ a b) x = x).
Proof.
  split.
  - intros k v H. apply mul_keys_in_universe in H. tauto.
  - intros x Hx. rewrite call_mul.
    destruct (mem x _) eqn:Hm; [|reflexivity].
    apply mem_true_iff, in_range in Hm. exfalso. apply Hx.
    change (get_dimension (__mul__ a b)) with (Z.max (_dim a) (_dim b)). lia.
Qed.

Lemma product_confined_to_universe_witness :
  ~ (1 <= 7 <= get_dimension (__mul__ (Cycle.mk [(7, 8); (8, 7)] 2) (Cycle.mk [] 0)))
  /\ __call__ (__mul__ (Cycle.mk [(7, 8); (8, 7)] 2) (Cycle.mk [] 0)) 7 = 7.
Proof.
  assert (H : ~ (1 <= 7 <= get_dimension
                   (__mul__ (Cycle.mk [(7, 8); (8, 7)] 2) (Cycle.mk [] 0))))
    by (simpl; lia).
  split; [exact H|].
  exact (proj2 (product_confined_to_universe _ _) 7 H).
Defined.

(** ** The single-cycle builder at its edges *)

Lemma fold_left_max_in (l : list Z) :
  forall a, fold_left Z.max l a = a \/ In (fold_left Z.max l a) l.
Proof.
  induction l as [|y l IH]; intros a; simpl; [now left|].
  destruct (IH (Z.max a y)) as [H|H]; [|tauto].
  rewrite H. destruct (Z.max_spec a y) as [[_ E]|[_ E]]; rewrite E; tauto.
Qed.

Lemma single_loop_entries (seq : list Z) :
  forall d k v,
    get k (single_loop seq d) = Some v ->
    get k d = Some v \/ (In k (removelast seq) /\ In v (tl seq)).
Proof.
  induction seq as [|a seq IH]; intros d k v H; [now left|].
  destruct seq as [|b seq]; [now left|].
  change (single_loop (a :: b :: seq) d) with (single_loop (b :: seq) (set a b d)) in H.
  change (removelast (a :: b :: seq)) with (a :: removelast (b :: seq)).
  apply IH in H. destruct H as [H|[H1 H2]].
  - rewrite get_set in H. destruct (Z.eqb_spec k a) as [->|_]; [|now left].
    injection H as <-. right. split; now left.
  - right. split; [now right|]. simpl. right. exact H2.
Qed.

(** X2. [generate_single_cycle] raises [ValueError] on the empty list.
    On a non-empty list it always returns; the dimension is the largest
    element of the list, every stored key and image is an element of
    the list, and a one-element list gives the empty mapping. *)
Theorem single_cycle_edges :
  generate_single_cycle [] = Raise ValueError
  /\ (forall e, generate_single_cycle [e] = Ok (Cycle.mk [] e))
  /\ (forall x c, exists p,
         generate_single_cycle (x :: c) = Ok p
         /\ In (_dim p) (x :: c)
         /\ (forall y, In y (x :: c) -> y <= _dim p)
         /\ (forall k v, get k (_map p) = Some v ->
                         In k (x :: c) /\ In v (x :: c))).
Proof.
  split; [reflexivity|]. split.
  - intros e. unfold generate_single_cycle. simpl.
    unfold strip, strip_step. simpl. now rewrite !Z.eqb_refl.
  - intros x c. eexists. split; [reflexivity|]. simpl _dim. split; [|split].
    + destruct (fold_left_max_in c x) as [H|H]; [rewrite H; now left | now right].
    + intros y Hy. destruct (fold_left_max_ge c x) as [H1 H2].
      destruct Hy as [<-|Hy]; [assumption | now apply H2].
    + intros k v H.
      change (_map _) with (strip (single_loop ((x :: c) ++ [x]) empty)) in H.
      rewrite get_strip in H.
      destruct (get k (single_loop ((x :: c) ++ [x]) empty)) as [w|] eqn:Hg;
        [|discriminate].
      destruct (w =? k); [discriminate|]. injection H as ->.
      apply single_loop_entries in Hg. destruct Hg as [Hg|[Hk Hv]]; [discriminate|].
      rewrite removelast_last in Hk. split; [assumption|].
      simpl in Hv. apply in_app_iff in Hv. destruct Hv as [Hv|[<-|[]]];
        [now right | now left].
Qed.

(** X3. On a list without repetition the builder returns the cycle the
    list spells: every element is sent to the next one, the last to the
    first, and every integer outside the list is fixed. *)
Theorem single_cycle_is_the_cycle (c : list Z) (g : Cycle.t) :
  NoDup c -> generate_single_cycle c = Ok g ->
  follows_cycle (__call__ g) c /\ (forall x, ~ In x c -> __call__ g x = x).
Proof.
  intros Hnd Hg. destruct (single_cycle_call c g Hnd Hg) as [H1 [H2 _]].
  now split.
Qed.

Lemma single_cycle_is_the_cycle_witness :
  follows_cycle (__call__ (Cycle.mk [(5, 2); (2, 9); (9, 5)] 9)) [5; 2; 9]
  /\ (forall x, ~ In x [5; 2; 9] ->
                __call__ (Cycle.mk [(5, 2); (2, 9); (9, 5)] 9) x = x).
Proof.
  apply (single_cycle_is_the_cycle [5; 2; 9]).
  - repeat constructor; simpl; intuition lia.
  - reflexivity.
Defined.

(** ** The parser at its edges *)

(** X4. A text of at most two characters, whatever they are, parses to
    the identity of dimension 0. *)
Theorem parse_short_text (text : string) :
  (String.length text <= 2)%nat -> Cycle text = Ok (Cycle.mk [] 0).
Proof.
  destruct text as [|a [|b [|c text]]]; simpl; intros H;
    try reflexivity.
  lia.
Qed.

Lemma parse_short_text_witness : Cycle "12" = Ok (Cycle.mk [] 0).
Proof. apply (parse_short_text "12"). simpl. lia. Defined.

(** X5. The parser never looks at the first and the last character of
    its text: two texts that differ only there have the same parse. *)
Theorem parse_ignores_delimiters (a b a' b' : ascii) (body : string) :
  Cycle (String a (body ++ String b "")) = Cycle (String a' (body ++ String b' "")).
Proof.
  unfold Cycle, slice_1_m1. now rewrite !drop_last_append.
Qed.

(** ** Parsing what the renderer wrote *)

Lemma read_rendered (c : list Z) (cs : list (list Z)) :
  Forall (fun c => c <> []) (c :: cs) ->
  read_cycles (split ")(" (slice_1_m1 (_prettify (c :: cs)))) = Ok (c :: cs).
Proof.
  intros Hne. inversion Hne as [|? ? Hc Hcs]; subst.
  rewrite prettify_shape by assumption.
  change ("(" ++ ?b ++ ")")%string with (String "(" (b ++ ")")%string).
  unfold slice_1_m1. rewrite drop_last_append.
  cbn [map]. rewrite (split_join ")" "(").
  - now apply (read_cycles_rendered (c :: cs)).
  - clear. change (Forall (fun s => all_chars (differs ")") s = true)
                          (map (join ", ") (map (map str) (c :: cs)))).
    induction (c :: cs) as [|d ds IH]; simpl; constructor; [|assumption].
    apply rendered_no_paren.
Qed.

(** X6. Whatever integers they hold (negative ones included), the
    non-empty cycles written by [_prettify] are read back unchanged by
    the parser's tokenizer, so the parse of the rendering is their
    right-nested product. *)
Theorem parse_of_rendering (c : list Z) (cs : list (list Z)) :
  Forall (fun c => c <> []) (c :: cs) ->
  read_cycles (split ")(" (slice_1_m1 (_prettify (c :: cs)))) = Ok (c :: cs)
  /\ Cycle (_prettify (c :: cs)) = nested_product (c :: cs).
Proof.
  intros Hne. split; [now apply read_rendered|].
  apply parse_nested_product. now apply read_rendered.
Qed.

Lemma parse_of_rendering_witness :
  read_cycles (split ")(" (slice_1_m1 (_prettify [[-3; 7]; [7; 0; 12]])))
  = Ok [[-3; 7]; [7; 0; 12]]
  /\ Cycle (_prettify [[-3; 7]; [7; 0; 12]]) = nested_product [[-3; 7]; [7; 0; 12]].
Proof.
  apply (parse_of_rendering [-3; 7] [[7; 0; 12]]).
  repeat constructor; discriminate.
Defined.

(** ** What the renderers depend on *)

Lemma list_remove_subset (x : Z) (l l' : list Z) :
  list_remove x l = Ok l' -> In x l /\ forall y, In y l' -> In y l.
Proof.
  revert l'. induction l as [|z l IH]; intros l'; simpl; [discriminate|].
  destruct (Z.eqb_spec x z) as [->|Hne].
  - intros [= ->]. split; [now left | intros y Hy; now right].
  - destruct (list_remove x l) as [l''|e]; simpl; [|discriminate].
    intros [= <-]. destruct (IH l'' eq_refl) as [H1 H2]. split; [now right|].
    intros y [<-|Hy]; [now left | right; now apply H2].
Qed.

Lemma follow_ext (f g : Z -> Z) (n : nat) :
  forall T cycles cyc cur,
    (forall x, In x T -> f x = g x) ->
    follow f n T cycles cyc cur = follow g n T cycles cyc cur.
Proof.
  induction n as [|n IH]; intros T cycles cyc cur Hfg; [reflexivity|].
  simpl. destruct (list_remove cur T) as [T'|e] eqn:Hr; simpl; [|reflexivity].
  destruct (list_remove_subset _ _ _ Hr) as [Hcur Hsub].
  rewrite (Hfg cur Hcur).
  destruct (mem (g cur) (cyc ++ [cur])).
  - destruct T' as [|start T'']; [reflexivity|].
    apply IH. intros x Hx. apply Hfg. now apply Hsub.
  - apply IH. intros x Hx. apply Hfg. now apply Hsub.
Qed.

Lemma create_representation_ext (p q : Cycle.t) :
  _dim p = _dim q ->
  (forall x, 1 <= x <= _dim p -> __call__ p x = __call__ q x) ->
  _create_representation p = _create_representation q.
Proof.
  intros Hd Hc. unfold _create_representation, get_dimension, extract.
  rewrite <- Hd. destruct (range 1 (_dim p + 1)) as [|start T] eqn:Hr; [reflexivity|].
  apply follow_ext. intros x Hx. apply Hc. rewrite <- Hr in Hx.
  apply in_range in Hx. lia.
Qed.

(** X7. [__repr__] and [decompose] only depend on the dimension and on the
    images of the points [1.._dim]: the order in which the dictionary was
    filled, and whatever it stores outside that range, do not show. *)
Theorem rendering_depends_on_images (p q : Cycle.t) :
  get_dimension p = get_dimension q ->
  (forall x, 1 <= x <= get_dimension p -> __call__ p x = __call__ q x) ->
  __repr__ p = __repr__ q /\ decompose p = decompose q.
Proof.
  intros Hd Hc. unfold __repr__, decompose.
  now rewrite (create_representation_ext p q Hd Hc).
Qed.

Lemma rendering_depends_on_images_witness :
  __repr__ (Cycle.mk [(1, 2); (2, 3); (3, 1)] 3)
  = __repr__ (Cycle.mk [(3, 1); (9, 4); (2, 3); (1, 2)] 3)
  /\ decompose (Cycle.mk [(1, 2); (2, 3); (3, 1)] 3)
     = decompose (Cycle.mk [(3, 1); (9, 4); (2, 3); (1, 2)] 3).
Proof.
  apply (rendering_depends_on_images (Cycle.mk [(1, 2); (2, 3); (3, 1)] 3)
           (Cycle.mk [(3, 1); (9, 4); (2, 3); (1, 2)] 3)).
  - reflexivity.
  - simpl. intros x Hx.
    assert (E : x = 1 \/ x = 2 \/ x = 3) by lia.
    destruct E as [-> | [-> | ->]]; reflexivity.
Defined.

(** ** The algebra of the product *)

Lemma mul_loop_ext (a b a' b' : Cycle.t) (l : list Z) :
  forall d,
    (forall x, In x l ->
               __call__ a (__call__ b x) = __call__ a' (__call__ b' x)) ->
    mul_loop a b l d = mul_loop a' b' l d.
Proof.
  unfold mul_loop. induction l as [|x l IH]; intros d H; [reflexivity|].
  simpl. rewrite (H x (or_introl eq_refl)). apply IH.
  intros y Hy. apply H. now right.
Qed.

Lemma mul_ext (a b a' b' : Cycle.t) :
  Z.max (_dim a) (_dim b) = Z.max (_dim a') (_dim b') ->
  (forall x, 1 <= x <= Z.max (_dim a) (_dim b) ->
             __call__ a (__call__ b x) = __call__ a' (__call__ b' x)) ->
  __mul__ a b = __mul__ a' b'.
Proof.
  intros Hd H. unfold __mul__, get_dimension. rewrite <- Hd.
  rewrite (mul_loop_ext a b a' b'); [reflexivity|].
  intros x Hx. apply H. apply in_range in Hx. lia.
Qed.

Lemma call_outside (p : Cycle.t) (x : Z) :
  keys_in_universe p -> ~ in_universe p x -> __call__ p x = x.
Proof.
  intros Hk Hx. rewrite call_get.
  destruct (get x (_map p)) as [v|] eqn:Hg; [|reflexivity].
  destruct (Hx (Hk x v Hg)).
Qed.

Lemma mul_keys (a b : Cycle.t) : keys_in_universe (__mul__ a b).
Proof.
  intros k v H. apply mul_keys_in_universe in H. unfold in_universe.
  change (_dim (__mul__ a b)) with (Z.max (_dim a) (_dim b)). tauto.
Qed.

Lemma call_mul_all (a b : Cycle.t) (x : Z) :
  keys_in_universe a -> keys_in_universe b ->
  __call__ (__mul__ a b) x = __call__ a (__call__ b x).
Proof.
  intros Ha Hb. rewrite call_mul. destruct (mem x _) eqn:Hm; [reflexivity|].
  apply mem_false_iff in Hm. rewrite in_range in Hm.
  rewrite (call_outside b x Hb) by (unfold in_universe; lia).
  rewrite (call_outside a x Ha) by (unfold in_universe; lia).
  reflexivity.
Qed.

(** The docstring of [__mul__] says the product is associative. It is
    not when an operand stores a key outside its universe. *)
Example mul_not_associative_unconfined :
  __mul__ (__mul__ (Cycle.mk [(5, 1)] 1) (Cycle.mk [] 1)) (Cycle.mk [(1, 5)] 5)
  <> __mul__ (Cycle.mk [(5, 1)] 1) (__mul__ (Cycle.mk [] 1) (Cycle.mk [(1, 5)] 5)).
Proof. vm_compute. discriminate. Qed.

(** X8. The product is associative, as stored values and not only as
    functions, on operands whose keys lie in their universe [1.._dim]
    (in particular on everything [__mul__] itself returns). *)
Theorem mul_associative (a b c : Cycle.t) :
  keys_in_universe a -> keys_in_universe b -> keys_in_universe c ->
  __mul__ (__mul__ a b) c = __mul__ a (__mul__ b c).
Proof.
  intros Ha Hb Hc. apply mul_ext.
  - change (_dim (__mul__ a b)) with (Z.max (_dim a) (_dim b)).
    change (_dim (__mul__ b c)) with (Z.max (_dim b) (_dim c)). lia.
  - intros x _.
    rewrite (call_mul_all a b) by assumption.
    now rewrite (call_mul_all b c) by assumption.
Qed.

Lemma keys_in_universe_b (p : Cycle.t) :
  forallb (fun kv => mem (fst kv) (range 1 (_dim p + 1))) (_map p) = true ->
  keys_in_universe p.
Proof.
  intros H k v Hg. rewrite forallb_forall in H.
  apply get_some_in, H, mem_true_iff, in_range in Hg. simpl in Hg.
  unfold in_universe. lia.
Qed.

Lemma mul_associative_witness :
  __mul__ (__mul__ (Cycle.mk [(1, 2); (2, 1)] 2) (Cycle.mk [(2, 3); (3, 2)] 3))
          (Cycle.mk [(1, 4); (4, 1)] 4)
  = __mul__ (Cycle.mk [(1, 2); (2, 1)] 2)
            (__mul__ (Cycle.mk [(2, 3); (3, 2)] 3) (Cycle.mk [(1, 4); (4, 1)] 4)).
Proof.
  apply mul_associative; apply keys_in_universe_b; reflexivity.
Defined.

(** X9. The empty permutation is a unit of the product: whatever its
    dimension, [a * e] and [e * a] act as [a] on every integer when the
    keys of [a] lie in its universe; when the dimension of [e] is not
    above that of [a] the products have the dimension of [a] and are
    printed as [a] is. *)
Theorem mul_identity (a : Cycle.t) (d : Z) :
  keys_in_universe a ->
  (forall x, __call__ (__mul__ a (Cycle.__init__ None d)) x = __call__ a x)
  /\ (forall x, __call__ (__mul__ (Cycle.__init__ None d) a) x = __call__ a x)
  /\ (d <= get_dimension a ->
      get_dimension (__mul__ a (Cycle.__init__ None d)) = get_dimension a
      /\ get_dimension (__mul__ (Cycle.__init__ None d) a) = get_dimension a
      /\ __repr__ (__mul__ a (Cycle.__init__ None d)) = __repr__ a
      /\ __repr__ (__mul__ (Cycle.__init__ None d) a) = __repr__ a).
Proof.
  intros Ha.
  assert (He : keys_in_universe (Cycle.__init__ None d))
    by (intros k v H; discriminate H).
  assert (H1 : forall x, __call__ (__mul__ a (Cycle.__init__ None d)) x = __call__ a x)
    by (intros x; now rewrite call_mul_all).
  assert (H2 : forall x, __call__ (__mul__ (Cycle.__init__ None d) a) x = __call__ a x)
    by (intros x; now rewrite call_mul_all).
  split; [exact H1|]. split; [exact H2|].
  intros Hd.
  assert (D1 : get_dimension (__mul__ a (Cycle.__init__ None d)) = get_dimension a)
    by (unfold __mul__, get_dimension in *; simpl; lia).
  assert (D2 : get_dimension (__mul__ (Cycle.__init__ None d) a) = get_dimension a)
    by (unfold __mul__, get_dimension in *; simpl; lia).
  split; [exact D1|]. split; [exact D2|]. unfold __repr__. split.
  - rewrite (create_representation_ext _ a D1); [reflexivity|].
    intros x _. apply H1.
  - rewrite (create_representation_ext _ a D2); [reflexivity|].
    intros x _. apply H2.
Qed.

Lemma mul_identity_witness :
  (forall x, __call__ (__mul__ (Cycle.mk [(3, 1); (1, 3)] 3) (Cycle.__init__ None 0)) x
             = __call__ (Cycle.mk [(3, 1); (1, 3)] 3) x)
  /\ (forall x, __call__ (__mul__ (Cycle.__init__ None 0) (Cycle.mk [(3, 1); (1, 3)] 3)) x
                = __call__ (Cycle.mk [(3, 1); (1, 3)] 3) x)
  /\ (0 <= get_dimension (Cycle.mk [(3, 1); (1, 3)] 3) ->
      get_dimension (__mul__ (Cycle.mk [(3, 1); (1, 3)] 3) (Cycle.__init__ None 0))
      = get_dimension (Cycle.mk [(3, 1); (1, 3)] 3)
      /\ get_dimension (__mul__ (Cycle.__init__ None 0) (Cycle.mk [(3, 1); (1, 3)] 3))
         = get_dimension (Cycle.mk [(3, 1); (1, 3)] 3)
      /\ __repr__ (__mul__ (Cycle.mk [(3, 1); (1, 3)] 3) (Cycle.__init__ None 0))
         = __repr__ (Cycle.mk [(3, 1); (1, 3)] 3)
      /\ __repr__ (__mul__ (Cycle.__init__ None 0) (Cycle.mk [(3, 1); (1, 3)] 3))
         = __repr__ (Cycle.mk [(3, 1); (1, 3)] 3)).
Proof.
  apply (mul_identity (Cycle.mk [(3, 1); (1, 3)] 3) 0).
  apply keys_in_universe_b. reflexivity.
Defined.

(** ** Dictionaries keep their keys distinct *)

Lemma in_keys_set (x k v : Z) (d : dict) :
  In x (keys (set k v d)) <-> x = k \/ In x (keys d).
Proof.
  induction d as [|[k' v'] d IH]; simpl.
  - intuition congruence.
  - destruct (Z.eqb_spec k k') as [->|Hne]; simpl.
    + intuition congruence.
    + rewrite IH. intuition congruence.
Qed.

Lemma set_wf (k v : Z) (d : dict) : Dict.wf d -> Dict.wf (set k v d).
Proof.
  unfold Dict.wf. induction d as [|[k' v'] d IH]; simpl; intros H.
  - repeat constructor. intros [].
  - inversion H as [|? ? Hk Hd]; subst.
    destruct (Z.eqb_spec k k') as [->|Hne]; simpl.
    + now constructor.
    + constructor; [|now apply IH].
      change (~ In k' (keys (set k v d))). rewrite in_keys_set.
      intuition congruence.
Qed.

Lemma set_new (k v : Z) (d : dict) :
  ~ In k (keys d) -> set k v d = d ++ [(k, v)].
Proof.
  induction d as [|[k' v'] d IH]; simpl; intros H; [reflexivity|].
  destruct (Z.eqb_spec k k') as [->|Hne]; [tauto|].
  rewrite IH by tauto. reflexivity.
Qed.

Lemma pop_wf (k : Z) (d : dict) : Dict.wf d -> Dict.wf (pop k d).
Proof.
  unfold Dict.wf, pop. induction d as [|[k' v'] d IH]; simpl; intros H; [constructor|].
  inversion H as [|? ? Hk Hd]; subst.
  destruct (negb (k =? k')); simpl; [|now apply IH].
  constructor; [|now apply IH].
  intros Hin. apply Hk. apply in_map_iff in Hin.
  destruct Hin as [kv [E Hin]]. apply filter_In in Hin.
  apply in_map_iff. exists kv. tauto.
Qed.

Lemma strip_wf (d : dict) : Dict.wf d -> Dict.wf (strip d).
Proof.
  unfold strip. generalize (keys d) as ks. intros ks. revert d.
  induction ks as [|k ks IH]; intros d H; simpl; [assumption|].
  apply IH. unfold strip_step. destruct (get k d) as [v|]; [|assumption].
  destruct (v =? k); [now apply pop_wf | assumption].
Qed.

Lemma mul_loop_wf (a b : Cycle.t) (l : list Z) :
  forall d, Dict.wf d -> Dict.wf (mul_loop a b l d).
Proof.
  unfold mul_loop. induction l as [|x l IH]; intros d H; simpl; [assumption|].
  apply IH. now apply set_wf.
Qed.

Lemma single_loop_wf (seq : list Z) :
  forall d, Dict.wf d -> Dict.wf (single_loop seq d).
Proof.
  induction seq as [|x seq IH]; intros d H; [assumption|].
  destruct seq as [|y seq]; [assumption|].
  change (single_loop (x :: y :: seq) d) with (single_loop (y :: seq) (set x y d)).
  apply IH. now apply set_wf.
Qed.

Lemma empty_wf : Dict.wf empty.
Proof. constructor. Qed.

(** ** Valid permutations are closed under the product *)

Lemma valid_keys (p : Cycle.t) : valid p -> keys_in_universe p.
Proof. intros Hv k v Hg. now apply (valid_range p Hv k v). Qed.

Lemma valid_into (p : Cycle.t) (D x : Z) :
  valid p -> _dim p <= D -> 1 <= x <= D -> 1 <= __call__ p x <= D.
Proof.
  intros Hv HD Hx.
  destruct (Z_le_gt_dec x (_dim p)) as [Hle|Hgt].
  - assert (H : in_universe p (__call__ p x))
      by (apply valid_call_in_universe; [assumption | unfold in_universe; lia]).
    unfold in_universe in H. lia.
  - rewrite (call_outside p x (valid_keys p Hv)); [lia|].
    unfold in_universe. lia.
Qed.

Lemma valid_injective (p : Cycle.t) (x y : Z) :
  valid p -> __call__ p x = __call__ p y -> x = y.
Proof.
  intros Hv E. pose proof (valid_keys p Hv) as Hk.
  assert (Hdec : forall z, in_universe p z \/ ~ in_universe p z)
    by (intros z; unfold in_universe; lia).
  destruct (Hdec x) as [Hx|Hx], (Hdec y) as [Hy|Hy].
  - now apply (valid_inj p Hv).
  - rewrite (call_outside p y Hk Hy) in E.
    exfalso. apply Hy. rewrite <- E. now apply valid_call_in_universe.
  - rewrite (call_outside p x Hk Hx) in E.
    exfalso. apply Hx. rewrite E. now apply valid_call_in_universe.
  - now rewrite (call_outside p x Hk Hx), (call_outside p y Hk Hy) in E.
Qed.

Lemma valid_preimage (p : Cycle.t) (D y : Z) :
  valid p -> _dim p <= D -> 1 <= y <= D ->
  exists x, 1 <= x <= D /\ __call__ p x = y.
Proof.
  intros Hv HD Hy.
  destruct (Z_le_gt_dec y (_dim p)) as [Hle|Hgt].
  - destruct (valid_surj p Hv y) as [x [Hx E]]; [unfold in_universe; lia|].
    exists x. unfold in_universe in Hx. split; [lia | assumption].
  - exists y. split; [assumption|].
    apply (call_outside p y (valid_keys p Hv)). unfold in_universe. lia.
Qed.

Lemma mul_valid (a b : Cycle.t) : valid a -> valid b -> valid (__mul__ a b).
Proof.
  intros Ha Hb.
  assert (Hcall : forall x, __call__ (__mul__ a b) x = __call__ a (__call__ b x))
    by (intros x; apply call_mul_all; now apply valid_keys).
  assert (Hda : _dim a <= Z.max (_dim a) (_dim b)) by lia.
  assert (Hdb : _dim b <= Z.max (_dim a) (_dim b)) by lia.
  constructor.
  - apply strip_wf, mul_loop_wf, empty_wf.
  - apply strip_sparse.
  - intros k v H. apply mul_keys_in_universe in H. destruct H as [Hk [-> _]].
    unfold in_universe. change (_dim (__mul__ a b)) with (Z.max (_dim a) (_dim b)).
    split; [assumption|].
    apply (valid_into a _ _ Ha Hda). now apply (valid_into b _ _ Hb Hdb).
  - intros x y _ _ E. rewrite !Hcall in E.
    apply (valid_injective b _ _ Hb). now apply (valid_injective a _ _ Ha).
  - intros y Hy. unfold in_universe in *.
    change (_dim (__mul__ a b)) with (Z.max (_dim a) (_dim b)) in *.
    destruct (valid_preimage a _ y Ha Hda Hy) as [w [Hw Ew]].
    destruct (valid_preimage b _ w Hb Hdb Hw) as [x [Hx Ex]].
    exists x. split; [assumption|]. rewrite Hcall. congruence.
Qed.

(** X10. The product of two valid permutations, of equal or different
    dimensions, is a valid permutation that acts as [a] after [b] on
    every integer. *)
Theorem product_of_valid (a b : Cycle.t) :
  valid a -> valid b ->
  valid (__mul__ a b)
  /\ forall x, __call__ (__mul__ a b) x = __call__ a (__call__ b x).
Proof.
  intros Ha Hb. split; [now apply mul_valid|].
  intros x. apply call_mul_all; now apply valid_keys.
Qed.

Lemma product_of_valid_witness :
  valid (__mul__ (Cycle.mk [(1, 2); (2, 1)] 2) (Cycle.mk [(2, 5); (5, 2)] 5))
  /\ forall x, __call__ (__mul__ (Cycle.mk [(1, 2); (2, 1)] 2)
                                 (Cycle.mk [(2, 5); (5, 2)] 5)) x
               = __call__ (Cycle.mk [(1, 2); (2, 1)] 2)
                          (__call__ (Cycle.mk [(2, 5); (5, 2)] 5) x).
Proof.
  apply product_of_valid; apply valid_b_sound; reflexivity.
Defined.

(** ** The inverse of a valid permutation *)

Lemma values_nodup (m : dict) :
  Dict.wf m ->
  (forall k1 k2 v, In (k1, v) m -> In (k2, v) m -> k1 = k2) ->
  NoDup (map snd m).
Proof.
  unfold Dict.wf. induction m as [|[k v] m IH]; simpl; intros Hwf Hinj; constructor.
  - intros Hin. apply in_map_iff in Hin. destruct Hin as [[k' v'] [E Hin]].
    simpl in E. subst v'.
    assert (k = k') by (apply (Hinj k k' v); [now left | now right]). subst k'.
    inversion Hwf as [|? ? Hk _]; subst. apply Hk.
    change k with (fst (k, v)). now apply in_map.
  - apply IH; [now inversion Hwf|].
    intros k1 k2 w H1 H2. apply (Hinj k1 k2 w); now right.
Qed.

Lemma valid_values_nodup (a : Cycle.t) : valid a -> NoDup (map snd (_map a)).
Proof.
  intros Hv. apply values_nodup; [apply (valid_wf a Hv)|].
  intros k1 k2 v H1 H2.
  apply (in_get _ _ _ (valid_wf a Hv)) in H1, H2.
  apply (valid_injective a _ _ Hv). rewrite !call_get. now rewrite H1, H2.
Qed.

Lemma inverse_loop_swap (l : list (Z * Z)) :
  forall d,
    NoDup (keys d ++ map snd l) ->
    fold_left (fun d kv => set (snd kv) (fst kv) d) l d = d ++ map swap l.
Proof.
  induction l as [|[k v] l IH]; intros d H; simpl.
  - now rewrite app_nil_r.
  - assert (Hnew : ~ In v (keys d)).
    { intros Hin. apply nodup_app_inv in H. destruct H as [_ [_ H]].
      apply (H v Hin). now left. }
    rewrite (set_new v k d Hnew). rewrite IH.
    + rewrite <- app_assoc. reflexivity.
    + unfold keys in *. rewrite map_app. simpl. rewrite <- app_assoc. exact H.
Qed.

Lemma swap_sparse (m : dict) :
  Dict.wf m -> sparse m -> NoDup (map snd m) -> sparse (map swap m).
Proof.
  intros Hwf Hs Hnd k v Hg. apply get_some_in, in_map_iff in Hg.
  destruct Hg as [[k' v'] [E Hin]]. unfold swap in E. simpl in E.
  injection E as <- <-. apply (in_get _ _ _ Hwf) in Hin.
  intros E. subst v'. now apply (Hs k' k').
Qed.

Lemma inverse_map (a : Cycle.t) :
  valid a -> _map (inverse a) = map swap (_map a).
Proof.
  intros Hv. unfold inverse. simpl. unfold items.
  rewrite inverse_loop_swap by (simpl; now apply valid_values_nodup).
  simpl. apply strip_sparse_id.
  apply swap_sparse; [apply (valid_wf a Hv) | apply (valid_sparse a Hv)
                     | now apply valid_values_nodup].
Qed.

Lemma swap_swap (m : dict) : map swap (map swap m) = m.
Proof.
  rewrite map_map. rewrite <- (map_id m) at 2. apply map_ext.
  intros [k v]. reflexivity.
Qed.

Lemma inverse_wf (a : Cycle.t) : valid a -> Dict.wf (_map (inverse a)).
Proof.
  intros Hv. rewrite (inverse_map a Hv). unfold Dict.wf, keys.
  rewrite map_map. simpl. now apply valid_values_nodup.
Qed.

Lemma call_inverse_left (a : Cycle.t) (x : Z) :
  valid a -> __call__ (inverse a) (__call__ a x) = x.
Proof.
  intros Hv. pose proof (inverse_wf a Hv) as Hwf.
  rewrite (call_get a). destruct (get x (_map a)) as [v|] eqn:Hg.
  - rewrite call_get.
    assert (Hin : In (v, x) (_map (inverse a))).
    { rewrite (inverse_map a Hv). apply in_map_iff. exists (x, v).
      split; [reflexivity | now apply get_some_in]. }
    now rewrite (in_get _ _ _ Hwf Hin).
  - rewrite call_get. destruct (get x (_map (inverse a))) as [k|] eqn:Hk;
      [|reflexivity].
    apply get_some_in in Hk. rewrite (inverse_map a Hv) in Hk.
    apply in_map_iff in Hk. destruct Hk as [[k' v'] [E Hin]].
    unfold swap in E. simpl in E. injection E as -> ->.
    apply (in_get _ _ _ (valid_wf a Hv)) in Hin.
    apply (valid_injective a _ _ Hv). rewrite !call_get. now rewrite Hin, Hg.
Qed.

Lemma inverse_keys (a : Cycle.t) : valid a -> keys_in_universe (inverse a).
Proof.
  intros Hv k v Hg. apply get_some_in in Hg. rewrite (inverse_map a Hv) in Hg.
  apply in_map_iff in Hg. destruct Hg as [[k' v'] [E Hin]].
  unfold swap in E. simpl in E. injection E as -> ->.
  apply (in_get _ _ _ (valid_wf a Hv)) in Hin.
  apply (valid_range a Hv) in Hin. unfold in_universe in *. simpl. tauto.
Qed.

Lemma call_inverse_right_all (a : Cycle.t) (x : Z) :
  valid a -> __call__ a (__call__ (inverse a) x) = x.
Proof.
  intros Hv.
  assert (Hdec : in_universe a x \/ ~ in_universe a x)
    by (unfold in_universe; lia).
  destruct Hdec as [Hx|Hx]; [now apply call_inverse_right|].
  rewrite (call_outside (inverse a) x (inverse_keys a Hv)) by exact Hx.
  now apply call_outside; [apply valid_keys|].
Qed.

Lemma inverse_valid (a : Cycle.t) : valid a -> valid (inverse a).
Proof.
  intros Hv. constructor.
  - now apply inverse_wf.
  - apply strip_sparse.
  - intros k v Hg. apply get_some_in in Hg. rewrite (inverse_map a Hv) in Hg.
    apply in_map_iff in Hg. destruct Hg as [[k' v'] [E Hin]].
    unfold swap in E. simpl in E. injection E as -> ->.
    apply (in_get _ _ _ (valid_wf a Hv)) in Hin.
    apply (valid_range a Hv) in Hin. unfold in_universe in *. simpl. tauto.
  - intros x y _ _ E. apply (f_equal (__call__ a)) in E.
    now rewrite !call_inverse_right_all in E.
  - intros y Hy. exists (__call__ a y). split.
    + change (in_universe a (__call__ a y)). now apply valid_call_in_universe.
    + now apply call_inverse_left.
Qed.

(** On a mapping that sends two keys to one value the inverse keeps the
    key stored last only. *)
Example inverse_of_non_injective :
  _map (inverse (Cycle.mk [(1, 3); (2, 3)] 3)) = [(3, 2)].
Proof. reflexivity. Qed.

(** X11. The inverse of a valid permutation is a valid permutation of the
    same dimension; it stores the entries of the operand with key and
    value exchanged, in the same order, and inverting twice gives the
    operand back. *)
Theorem inverse_of_valid (a : Cycle.t) :
  valid a ->
  valid (inverse a)
  /\ _map (inverse a) = map swap (_map a)
  /\ get_dimension (inverse a) = get_dimension a
  /\ inverse (inverse a) = a.
Proof.
  intros Hv. pose proof (inverse_valid a Hv) as Hvi.
  split; [assumption|]. split; [now apply inverse_map|]. split; [reflexivity|].
  pose proof (inverse_map (inverse a) Hvi) as H2.
  rewrite (inverse_map a Hv), swap_swap in H2.
  destruct a as [m d]. destruct (inverse (inverse (Cycle.mk m d))) as [m' d'] eqn:E.
  assert (Hd : d' = d) by (apply (f_equal _dim) in E; simpl in E; congruence).
  simpl in H2. now subst.
Qed.

Lemma inverse_of_valid_witness :
  valid (inverse (Cycle.mk [(1, 4); (4, 3); (3, 1)] 4))
  /\ _map (inverse (Cycle.mk [(1, 4); (4, 3); (3, 1)] 4))
     = map swap (_map (Cycle.mk [(1, 4); (4, 3); (3, 1)] 4))
  /\ get_dimension (inverse (Cycle.mk [(1, 4); (4, 3); (3, 1)] 4))
     = get_dimension (Cycle.mk [(1, 4); (4, 3); (3, 1)] 4)
  /\ inverse (inverse (Cycle.mk [(1, 4); (4, 3); (3, 1)] 4))
     = Cycle.mk [(1, 4); (4, 3); (3, 1)] 4.
Proof.
  apply (inverse_of_valid (Cycle.mk [(1, 4); (4, 3); (3, 1)] 4)).
  apply valid_b_sound. reflexivity.
Defined.

(** X12. For a valid permutation the inverse undoes the permutation on
    both sides and on every integer, and the product [inverse a * a]
    stores no entry. *)
Theorem inverse_cancels (a : Cycle.t) :
  valid a ->
  (forall x, __call__ (inverse a) (__call__ a x) = x)
  /\ (forall x, __call__ a (__call__ (inverse a) x) = x)
  /\ _map (__mul__ (inverse a) a) = [].
Proof.
  intros Hv. split; [intros x; now apply call_inverse_left|].
  split; [intros x; now apply call_inverse_right_all|].
  apply get_all_none. intros x.
  destruct (get x (_map (__mul__ (inverse a) a))) as [v|] eqn:Hg; [|reflexivity].
  apply mul_keys_in_universe in Hg. destruct Hg as [_ [E Hne]].
  rewrite call_inverse_left in E by assumption. congruence.
Qed.

Lemma inverse_cancels_witness :
  (forall x, __call__ (inverse (Cycle.mk [(1, 4); (4, 3); (3, 1)] 4))
                      (__call__ (Cycle.mk [(1, 4); (4, 3); (3, 1)] 4) x) = x)
  /\ (forall x, __call__ (Cycle.mk [(1, 4); (4, 3); (3, 1)] 4)
                         (__call__ (inverse (Cycle.mk [(1, 4); (4, 3); (3, 1)] 4)) x) = x)
  /\ _map (__mul__ (inverse (Cycle.mk [(1, 4); (4, 3); (3, 1)] 4))
                   (Cycle.mk [(1, 4); (4, 3); (3, 1)] 4)) = [].
Proof.
  apply (inverse_cancels (Cycle.mk [(1, 4); (4, 3); (3, 1)] 4)).
  apply valid_b_sound. reflexivity.
Defined.

(** ** A cycle and its reverse *)

Lemma follows_rev_cancel (f f' : Z -> Z) (c : list Z) :
  follows_cycle f c -> follows_cycle f' (rev c) ->
  forall x, In x c -> f' (f x) = x.
Proof.
  intros [Hstep Hwrap] [Hstep' Hwrap'] x Hx.
  apply in_split in Hx. destruct Hx as [pre [post Hc]].
  destruct post as [|y post].
  - rewrite (Hwrap pre x Hc). destruct pre as [|h pre].
    + subst c. simpl. apply (Hwrap' [] x). reflexivity.
    + assert (Hr : rev c = (x :: rev pre) ++ [h])
        by (subst c; simpl; rewrite rev_app_distr; reflexivity).
      subst c. simpl hd. rewrite (Hwrap' _ _ Hr), Hr. reflexivity.
  - rewrite (Hstep pre x y post Hc).
    apply (Hstep' (rev post) y x (rev pre)).
    subst c. rewrite rev_app_distr. simpl. now rewrite <- !app_assoc.
Qed.

Lemma single_cycle_entries (c : list Z) (g : Cycle.t) (k v : Z) :
  generate_single_cycle c = Ok g -> get k (_map g) = Some v -> In k c /\ In v c.
Proof.
  intros Hg H. destruct c as [|x c]; [discriminate|].
  assert (Hmap : _map g = strip (single_loop ((x :: c) ++ [x]) empty))
    by (injection Hg as <-; reflexivity).
  rewrite Hmap, get_strip in H.
  destruct (get k (single_loop ((x :: c) ++ [x]) empty)) as [w|] eqn:Hw;
    [|discriminate].
  destruct (w =? k); [discriminate|]. injection H as ->.
  apply single_loop_entries in Hw. destruct Hw as [Hw|[Hk Hv]]; [discriminate|].
  rewrite removelast_last in Hk. split; [assumption|].
  simpl in Hv. apply in_app_iff in Hv.
  destruct Hv as [Hv|[<-|[]]]; [now right | now left].
Qed.

Lemma single_cycle_wf (c : list Z) (g : Cycle.t) :
  generate_single_cycle c = Ok g -> Dict.wf (_map g).
Proof.
  intros Hg. destruct c as [|x c]; [discriminate|].
  assert (Hmap : _map g = strip (single_loop ((x :: c) ++ [x]) empty))
    by (injection Hg as <-; reflexivity).
  rewrite Hmap. apply strip_wf, single_loop_wf, empty_wf.
Qed.

Lemma single_cycle_rev_cancel (c : list Z) (g g' : Cycle.t) :
  NoDup c -> generate_single_cycle c = Ok g ->
  generate_single_cycle (rev c) = Ok g' ->
  forall x, __call__ g' (__call__ g x) = x.
Proof.
  intros Hnd Hg Hg' x.
  destruct (single_cycle_call c g Hnd Hg) as [Hf [Hid _]].
  destruct (single_cycle_call (rev c) g' (NoDup_rev Hnd) Hg') as [Hf' [Hid' _]].
  destruct (in_dec Z.eq_dec x c) as [Hx|Hx].
  - now apply (follows_rev_cancel _ _ c).
  - rewrite (Hid x Hx). apply Hid'. now rewrite <- in_rev.
Qed.

Lemma rev_nonempty {A : Type} (c : list A) : c <> [] -> rev c <> [].
Proof.
  destruct c as [|x c]; [congruence|]. intros _ E.
  apply (f_equal (@List.length A)) in E. rewrite length_rev in E. discriminate E.
Qed.

Lemma single_cycle_valid (c : list Z) (g : Cycle.t) :
  NoDup c -> (forall x, In x c -> 1 <= x) ->
  generate_single_cycle c = Ok g -> valid g.
Proof.
  intros Hnd Hpos Hg.
  assert (Hne : c <> []) by (intros ->; discriminate Hg).
  destruct (single_cycle_ok (rev c) (rev_nonempty c Hne)) as [g' Hg'].
  pose proof (single_cycle_rev_cancel c g g' Hnd Hg Hg') as Hleft.
  assert (Hright : forall x, __call__ g (__call__ g' x) = x).
  { apply (single_cycle_rev_cancel (rev c) g' g (NoDup_rev Hnd) Hg').
    now rewrite rev_involutive. }
  destruct (single_cycle_call c g Hnd Hg) as [Hf [Hid Hdim]].
  destruct (single_cycle_call (rev c) g' (NoDup_rev Hnd) Hg') as [Hf' [Hid' _]].
  assert (Huniv : forall x, In x c -> in_universe g x).
  { intros x Hx. split; [now apply Hpos | now apply Hdim]. }
  constructor.
  - now apply single_cycle_wf with c.
  - now apply single_cycle_sparse with c.
  - intros k v H. destruct (single_cycle_entries c g k v Hg H). split; now apply Huniv.
  - intros x y _ _ E. apply (f_equal (__call__ g')) in E. now rewrite !Hleft in E.
  - intros y Hy. exists (__call__ g' y). split; [|apply Hright].
    destruct (in_dec Z.eq_dec y c) as [Hin|Hout].
    + apply Huniv. rewrite (in_rev c). apply (follows_cycle_in _ _ _ Hf').
      now rewrite <- in_rev.
    + rewrite Hid' by now rewrite <- in_rev. assumption.
Qed.

(** X13. On a list of pairwise distinct positive integers the builder
    returns a valid permutation. *)
Theorem single_cycle_builds_valid (c : list Z) (g : Cycle.t) :
  NoDup c -> (forall x, In x c -> 1 <= x) ->
  generate_single_cycle c = Ok g -> valid g.
Proof.
  intros Hnd Hpos Hg.
  apply (single_cycle_valid c g); assumption.
Qed.

Lemma single_cycle_builds_valid_witness :
  valid (Cycle.mk [(4, 2); (2, 7); (7, 4)] 7).
Proof.
  apply (single_cycle_builds_valid [4; 2; 7]).
  - repeat constructor; simpl; intuition lia.
  - simpl. intros x Hx. lia.
  - reflexivity.
Defined.

Lemma single_cycle_dim_max (c : list Z) (g : Cycle.t) :
  generate_single_cycle c = Ok g ->
  In (_dim g) c /\ forall y, In y c -> y <= _dim g.
Proof.
  intros Hg. destruct c as [|x c]; [discriminate|]. injection Hg as <-. simpl _dim.
  destruct (fold_left_max_ge c x) as [H1 H2]. split.
  - destruct (fold_left_max_in c x) as [H|H]; [rewrite H; now left | now right].
  - intros y [<-|Hy]; [assumption | now apply H2].
Qed.

(** X14. The inverse of the cycle built from a list of distinct positive
    integers is the cycle built from the reversed list: the two have the
    same dimension, act alike on every integer and are printed alike. *)
Theorem inverse_of_cycle_is_reversed_cycle (c : list Z) (g g' : Cycle.t) :
  NoDup c -> (forall x, In x c -> 1 <= x) ->
  generate_single_cycle c = Ok g ->
  generate_single_cycle (rev c) = Ok g' ->
  get_dimension (inverse g) = get_dimension g'
  /\ (forall x, __call__ (inverse g) x = __call__ g' x)
  /\ __repr__ (inverse g) = __repr__ g'.
Proof.
  intros Hnd Hpos Hg Hg'.
  pose proof (single_cycle_valid c g Hnd Hpos Hg) as Hv.
  assert (Hright : forall x, __call__ g (__call__ g' x) = x).
  { apply (single_cycle_rev_cancel (rev c) g' g (NoDup_rev Hnd) Hg').
    now rewrite rev_involutive. }
  assert (Hcall : forall x, __call__ (inverse g) x = __call__ g' x).
  { intros x. rewrite <- (Hright x) at 1. now apply call_inverse_left. }
  assert (Hd : _dim (inverse g) = _dim g').
  { change (_dim (inverse g)) with (_dim g).
    destruct (single_cycle_dim_max c g Hg) as [H1 H2].
    destruct (single_cycle_dim_max (rev c) g' Hg') as [H1' H2'].
    apply Z.le_antisymm.
    - apply H2'. now rewrite <- in_rev.
    - apply H2. now rewrite (in_rev c). }
  split; [exact Hd|]. split; [exact Hcall|].
  unfold __repr__. rewrite (create_representation_ext (inverse g) g' Hd);
    [reflexivity|].
  intros x _. apply Hcall.
Qed.

Lemma inverse_of_cycle_is_reversed_cycle_witness :
  get_dimension (inverse (Cycle.mk [(4, 2); (2, 7); (7, 4)] 7))
  = get_dimension (Cycle.mk [(7, 2); (2, 4); (4, 7)] 7)
  /\ (forall x, __call__ (inverse (Cycle.mk [(4, 2); (2, 7); (7, 4)] 7)) x
                = __call__ (Cycle.mk [(7, 2); (2, 4); (4, 7)] 7) x)
  /\ __repr__ (inverse (Cycle.mk [(4, 2); (2, 7); (7, 4)] 7))
     = __repr__ (Cycle.mk [(7, 2); (2, 4); (4, 7)] 7).
Proof.
  apply (inverse_of_cycle_is_reversed_cycle [4; 2; 7]).
  - repeat constructor; simpl; intuition lia.
  - simpl. intros x Hx. lia.
  - reflexivity.
  - reflexivity.
Defined.

(** ** The parser returns valid permutations *)

Lemma identity_valid (d : Z) : d <= 0 -> valid (Cycle.mk empty d).
Proof.
  intros Hd. constructor.
  - constructor.
  - intros k v H. discriminate H.
  - intros k v H. discriminate H.
  - intros x y Hx. unfold in_universe in Hx. simpl in Hx. lia.
  - intros y Hy. unfold in_universe in Hy. simpl in Hy. lia.
Qed.

Lemma nested_product_valid (cs : list (list Z)) :
  forall p,
    Forall (fun c => NoDup c) cs ->
    (forall x, In x (List.concat cs) -> 1 <= x) ->
    nested_product cs = Ok p -> valid p.
Proof.
  induction cs as [|c cs IH]; intros p Hnd Hpos Hp.
  - injection Hp as <-. apply identity_valid. lia.
  - inversion Hnd as [|? ? Hc Hcs]; subst.
    assert (Hposc : forall x, In x c -> 1 <= x).
    { intros x Hx. apply Hpos. simpl. apply in_app_iff. now left. }
    assert (Hposcs : forall x, In x (List.concat cs) -> 1 <= x).
    { intros x Hx. apply Hpos. simpl. apply in_app_iff. now right. }
    destruct cs as [|c2 cs].
    + simpl in Hp. now apply single_cycle_valid with c.
    + remember (c2 :: cs) as cs' eqn:Hcs'.
      assert (Hp' : exists g q, generate_single_cycle c = Ok g
                                /\ nested_product cs' = Ok q /\ p = __mul__ g q).
      { rewrite Hcs' in *. simpl in Hp. simpl.
        destruct (generate_single_cycle c) as [g|e]; simpl in Hp; [|discriminate].
        destruct (match cs with [] => _ | _ => _ end) as [q|e]; simpl in Hp;
          [|discriminate].
        exists g, q. repeat split. congruence. }
      destruct Hp' as [g [q [Hg [Hq ->]]]].
      apply mul_valid; [now apply single_cycle_valid with c | now apply IH].
Qed.

(** X15. When every cycle of the text lists pairwise distinct positive
    integers, the parser returns a valid permutation, even when the
    cycles share elements. *)
Theorem parse_returns_valid (text : string) (cs : list (list Z)) :
  read_cycles (split ")(" (slice_1_m1 text)) = Ok cs ->
  Forall (fun c => NoDup c) cs ->
  (forall x, In x (List.concat cs) -> 1 <= x) ->
  exists p, Cycle text = Ok p /\ valid p.
Proof.
  intros Hr Hnd Hpos.
  destruct (nested_product_ok cs (read_cycles_nonempty _ _ Hr)) as [p Hp].
  exists p. rewrite (parse_nested_product _ _ Hr). split; [assumption|].
  now apply nested_product_valid with cs.
Qed.

Lemma parse_returns_valid_witness :
  exists p, Cycle "(1, 2)(2, 3)" = Ok p /\ valid p.
Proof.
  apply (parse_returns_valid "(1, 2)(2, 3)" [[1; 2]; [2; 3]]).
  - reflexivity.
  - repeat constructor; simpl; intuition lia.
  - simpl. intros x Hx. lia.
Defined.

(** ** What the extraction returns on any mapping *)

Lemma nodup_app_intro {A : Type} (l1 l2 : list A) :
  NoDup l1 -> NoDup l2 -> (forall x, In x l1 -> ~ In x l2) -> NoDup (l1 ++ l2).
Proof.
  induction l1 as [|a l1 IH]; simpl; intros H1 H2 Hd; [assumption|].
  inversion H1 as [|? ? Ha H1']; subst. constructor.
  - rewrite in_app_iff. intros [H|H]; [tauto|]. apply (Hd a); [now left | assumption].
  - apply IH; [assumption | assumption|]. intros x Hx. apply Hd. now right.
Qed.

Lemma hd_snoc (l : list Z) (a d : Z) : hd d (l ++ [a]) = hd a l.
Proof. now destruct l. Qed.

Lemma long_iff_nonempty (cyc : list Z) (cur : Z) :
  (1 <? Z.of_nat (List.length (cyc ++ [cur]))) = negb (match cyc with [] => true | _ => false end).
Proof.
  destruct cyc as [|a cyc]; [reflexivity|].
  simpl negb. apply Z.ltb_lt. rewrite length_app. simpl. lia.
Qed.

Section Shape.

Variable f : Z -> Z.

Lemma follow_shape (n : nat) :
  forall T cycles cyc cur out,
    NoDup T -> NoDup cyc -> (forall y, In y cyc -> ~ In y T) ->
    follow f n T cycles cyc cur = Ok out ->
    exists new,
      out = cycles ++ new
      /\ Forall (fun c => (2 <= List.length c)%nat) new
      /\ NoDup (List.concat new)
      /\ (forall x, In x (List.concat new) -> In x T \/ In x cyc).
Proof.
  induction n as [|n IH]; intros T cycles cyc cur out HT Hcyc Hdisj Hrun;
    [discriminate|].
  simpl in Hrun. destruct (list_remove cur T) as [T'|e] eqn:Hr; [|discriminate].
  simpl in Hrun.
  destruct (list_remove_subset _ _ _ Hr) as [Hcur _].
  destruct (list_remove_spec _ _ _ HT Hr) as [HT' Hin].
  assert (Hcyc' : NoDup (cyc ++ [cur])).
  { apply nodup_app_intro; [assumption | repeat constructor; intros []|].
    intros x Hx [E|[]]. subst x. now apply (Hdisj cur). }
  assert (Hdisj' : forall y, In y (cyc ++ [cur]) -> ~ In y T').
  { intros y Hy. rewrite Hin. apply in_app_iff in Hy.
    destruct Hy as [Hy|[<-|[]]]; [|tauto].
    intros [HyT _]. now apply (Hdisj y). }
  destruct (mem (f cur) (cyc ++ [cur])).
  - assert (Hrest : exists new',
               out = (if 1 <? Z.of_nat (List.length (cyc ++ [cur]))
                      then cycles ++ [cyc ++ [cur]] else cycles) ++ new'
               /\ Forall (fun c => (2 <= List.length c)%nat) new'
               /\ NoDup (List.concat new')
               /\ (forall x, In x (List.concat new') -> In x T')).
    { destruct T' as [|start T''].
      - injection Hrun as <-. exists []. rewrite app_nil_r.
        repeat split; [constructor | constructor | intros x []].
      - destruct (IH _ _ _ _ _ HT' (NoDup_nil Z) (fun y (H : In y []) => match H with end) Hrun)
          as [new' [E [H1 [H2 H3]]]].
        exists new'. repeat split; try assumption.
        intros x Hx. destruct (H3 x Hx) as [H|[]]. exact H. }
    destruct Hrest as [new' [E [H1 [H2 H3]]]].
    destruct (1 <? Z.of_nat (List.length (cyc ++ [cur]))) eqn:Hlong.
    + exists ((cyc ++ [cur]) :: new'). split; [now rewrite E, <- app_assoc|].
      split; [constructor; [apply Z.ltb_lt in Hlong; lia | assumption]|].
      split.
      * simpl. apply nodup_app_intro; [assumption | assumption|].
        intros x Hx Hx'. apply (Hdisj' x Hx). now apply H3.
      * intros x Hx. simpl in Hx. apply in_app_iff in Hx.
        destruct Hx as [Hx|Hx].
        -- apply in_app_iff in Hx. destruct Hx as [Hx|[<-|[]]]; tauto.
        -- left. apply H3, Hin in Hx. tauto.
    + exists new'. split; [assumption|]. split; [assumption|].
      split; [assumption|]. intros x Hx. left. apply H3, Hin in Hx. tauto.
  - destruct (IH _ _ _ _ _ HT' Hcyc' Hdisj' Hrun) as [new [E [H1 [H2 H3]]]].
    exists new. repeat split; try assumption.
    intros x Hx. destruct (H3 x Hx) as [H|H].
    + left. apply Hin in H. tauto.
    + apply in_app_iff in H. destruct H as [H|[<-|[]]]; tauto.
Qed.

Lemma follow_current_in (n : nat) (T : list Z) (cycles : list (list Z))
      (cyc : list Z) (cur : Z) (out : list (list Z)) :
  follow f n T cycles cyc cur = Ok out -> In cur T.
Proof.
  destruct n as [|n]; [discriminate|]. simpl.
  destruct (list_remove cur T) as [T'|e] eqn:Hr; [|discriminate].
  intros _. now destruct (list_remove_subset _ _ _ Hr).
Qed.

Lemma follow_images (U : Z -> Prop) (n : nat) :
  forall T cycles cyc cur out,
    (forall x, In x T -> U x) -> (forall x, In x cyc -> U x) ->
    follow f n T cycles cyc cur = Ok out ->
    forall x, In x T -> U (f x).
Proof.
  induction n as [|n IH]; intros T cycles cyc cur out HT Hcyc Hrun x Hx;
    [discriminate|].
  simpl in Hrun. destruct (list_remove cur T) as [T'|e] eqn:Hr; [|discriminate].
  simpl in Hrun. destruct (list_remove_subset _ _ _ Hr) as [Hcur Hsub].
  assert (Hsplit : x = cur \/ In x T').
  { clear - Hr Hx. revert T' Hr. induction T as [|z T IHT]; intros T'; [destruct Hx|].
    simpl. destruct (Z.eqb_spec cur z) as [->|Hne].
    - intros [= ->]. destruct Hx as [<-|Hx]; [now left | now right].
    - destruct (list_remove cur T) as [T2|e]; simpl; [|discriminate].
      intros [= <-]. destruct Hx as [<-|Hx]; [right; now left|].
      destruct (IHT Hx T2 eq_refl) as [H|H]; [now left | right; now right]. }
  assert (HT' : forall y, In y T' -> U y) by (intros y Hy; apply HT; now apply Hsub).
  assert (Hcyc' : forall y, In y (cyc ++ [cur]) -> U y).
  { intros y Hy. apply in_app_iff in Hy.
    destruct Hy as [Hy|[<-|[]]]; [now apply Hcyc | now apply HT]. }
  destruct (mem (f cur) (cyc ++ [cur])) eqn:Hm.
  - destruct Hsplit as [->|Hx'].
    + apply Hcyc'. now apply mem_true_iff.
    + destruct T' as [|start T'']; [destruct Hx'|].
      apply (IH _ _ _ _ _ HT' (fun y (H : In y []) => match H with end) Hrun x Hx').
  - destruct Hsplit as [->|Hx'].
    + apply HT'. now apply (follow_current_in _ _ _ _ _ _ Hrun).
    + now apply (IH _ _ _ _ _ HT' Hcyc' Hrun x Hx').
Qed.

End Shape.

(** X16. Whatever the mapping, when the extraction returns, every cycle
    it returns has at least two elements, the elements are points of
    [1.._dim], and no point occurs twice in the result. *)
Theorem extraction_shape (p : Cycle.t) (cycles : list (list Z)) :
  _create_representation p = Ok cycles ->
  Forall (fun c => (2 <= List.length c)%nat) cycles
  /\ NoDup (List.concat cycles)
  /\ (forall x, In x (List.concat cycles) -> 1 <= x <= get_dimension p).
Proof.
  unfold _create_representation, extract, get_dimension.
  destruct (range 1 (_dim p + 1)) as [|start T] eqn:Hr.
  - intros [= <-]. repeat split; [constructor | constructor | destruct H | destruct H].
  - intros Hrun. rewrite <- Hr in Hrun.
    destruct (follow_shape _ _ _ _ _ _ _ (sorted_nodup _ (range_sorted 1 (_dim p + 1)))
                (NoDup_nil Z) (fun y (H : In y []) => match H with end) Hrun)
      as [new [E [H1 [H2 H3]]]].
    simpl in E. subst new. split; [assumption|]. split; [assumption|].
    intros x Hx. destruct (H3 x Hx) as [H|[]]. apply in_range in H. lia.
Qed.

Lemma extraction_shape_witness :
  Forall (fun c => (2 <= List.length c)%nat) [[1; 3]; [2; 4]]
  /\ NoDup (List.concat [[1; 3]; [2; 4]])
  /\ (forall x, In x (List.concat [[1; 3]; [2; 4]]) ->
                1 <= x <= get_dimension (Cycle.mk [(1, 3); (3, 1); (2, 4); (4, 2)] 5)).
Proof.
  apply (extraction_shape (Cycle.mk [(1, 3); (3, 1); (2, 4); (4, 2)] 5)).
  reflexivity.
Defined.

Lemma extraction_images (p : Cycle.t) (cycles : list (list Z)) :
  _create_representation p = Ok cycles ->
  forall x, in_universe p x -> in_universe p (__call__ p x).
Proof.
  unfold _create_representation, extract, get_dimension.
  destruct (range 1 (_dim p + 1)) as [|start T] eqn:Hr.
  - intros _ x Hx. apply in_universe_range in Hx. rewrite Hr in Hx. destruct Hx.
  - intros Hrun x Hx. rewrite <- Hr in Hrun.
    apply (follow_images (__call__ p) (in_universe p) _ _ _ _ _ _
             (fun y Hy => proj1 (in_universe_range p y) Hy)
             (fun y (H : In y []) => match H with end) Hrun).
    now apply in_universe_range.
Qed.

(** X17. When some point of [1.._dim] has its image outside [1.._dim],
    [__repr__] and [decompose] raise [ValueError] (from [list.remove])
    instead of returning a string. *)
Theorem rendering_raises_on_escaping_image (p : Cycle.t) (x : Z) :
  in_universe p x -> ~ in_universe p (__call__ p x) ->
  __repr__ p = Raise ValueError /\ decompose p = Raise ValueError.
Proof.
  intros Hx Hout. unfold __repr__, decompose.
  destruct (_create_representation p) as [cycles|[]] eqn:Hc; [|split; reflexivity].
  destruct (Hout (extraction_images p cycles Hc x Hx)).
Qed.

Lemma rendering_raises_on_escaping_image_witness :
  __repr__ (Cycle.mk [(1, 5)] 2) = Raise ValueError
  /\ decompose (Cycle.mk [(1, 5)] 2) = Raise ValueError.
Proof.
  apply (rendering_raises_on_escaping_image (Cycle.mk [(1, 5)] 2) 1).
  - unfold in_universe. simpl. lia.
  - unfold in_universe. change (__call__ (Cycle.mk [(1, 5)] 2) 1) with 5.
    simpl. lia.
Defined.

(** ** What the extraction returns on a valid permutation *)

Lemma describes_iff (f : Z -> Z) (S S' : Z -> Prop) (new : list (list Z)) :
  (forall x, S x <-> S' x) -> describes f S new -> describes f S' new.
Proof.
  intros HS [H1 H2 H3 H4 H5 H6]. constructor; try assumption.
  - intros x Hx. apply HS. now apply H1.
  - intros x Hx. apply H4. now apply HS.
Qed.

Lemma describes_nil (f : Z -> Z) (S : Z -> Prop) :
  (forall x, S x -> f x = x) -> describes f S [].
Proof.
  intros H. constructor.
  - intros x [].
  - constructor.
  - intros c [].
  - intros x Hx _. now apply H.
  - constructor.
  - constructor.
Qed.

Lemma hd_in (c : list Z) : (2 <= List.length c)%nat -> In (hd 0 c) c.
Proof. destruct c; simpl; [lia | now left]. Qed.

Section Describe.

Variable f : Z -> Z.

Lemma follow_inv_close (T cyc : list Z) (cur : Z) :
  follow_inv f T cyc cur -> mem (f cur) (cyc ++ [cur]) = true ->
  f cur = hd cur cyc.
Proof.
  intros [Hnd Hcur Hdisj Hcl Hinj Hch] Hm. apply mem_true_iff in Hm.
  destruct (Z.eq_dec (f cur) (hd cur cyc)) as [E|Hne]; [assumption|].
  destruct (Hch _ Hm Hne) as [z [Hz Hfz]].
  assert (z = cur) by (apply Hinj; auto). subst z.
  now destruct (Hdisj cur Hz).
Qed.

Lemma extract_state_next (T T' cyc : list Z) (cur : Z) :
  extract_state f T cyc cur -> list_remove cur T = Ok T' ->
  mem (f cur) (cyc ++ [cur]) = false ->
  extract_state f T' (cyc ++ [cur]) (f cur).
Proof.
  intros [Hinv Hs Hpath HhT Hhc] Hr Hm.
  destruct (list_remove_subset _ _ _ Hr) as [Hcur Hsub].
  constructor.
  - now apply follow_inv_next with T.
  - now apply list_remove_sorted with cur T.
  - intros pre x y post E.
    destruct (exists_last (l := x :: y :: post)) as [body [l Hl]]; [discriminate|].
    rewrite Hl, app_assoc in E. apply app_inj_tail in E. destruct E as [E El].
    destruct post as [|z post].
    + change [x; y] with ([x] ++ [y]) in Hl. apply app_inj_tail in Hl.
      destruct Hl as [<- <-]. apply app_inj_tail in E. destruct E as [_ ->].
      now symmetry.
    + destruct (exists_last (l := y :: z :: post)) as [body' [l' Hl']];
        [discriminate|].
      rewrite Hl' in Hl. change (x :: body' ++ [l']) with ((x :: body') ++ [l']) in Hl.
      apply app_inj_tail in Hl. destruct Hl as [<- _].
      destruct body' as [|y' body'].
      * simpl in Hl'. discriminate Hl'.
      * simpl in Hl'. injection Hl' as <- _.
        apply (Hpath pre x y body'). exact E.
  - intros y Hy. rewrite hd_snoc. apply HhT. now apply Hsub.
  - intros y Hy. rewrite hd_snoc. apply in_app_iff in Hy.
    destruct Hy as [Hy|[<-|[]]]; [now apply Hhc | now apply HhT].
Qed.

Lemma extract_state_restart (T cyc : list Z) (cur start : Z) (T'' : list Z) :
  extract_state f T cyc cur -> list_remove cur T = Ok (start :: T'') ->
  mem (f cur) (cyc ++ [cur]) = true ->
  extract_state f (start :: T'') [] start.
Proof.
  intros [Hinv Hs Hpath HhT Hhc] Hr Hm.
  pose proof (list_remove_sorted _ _ _ Hs Hr) as Hs'.
  constructor.
  - apply (follow_inv_restart f T _ cyc cur); auto. now left.
  - assumption.
  - intros pre x y post E. apply (f_equal (@List.length Z)) in E.
    rewrite !length_app in E. simpl in E. lia.
  - simpl. intros y [<-|Hy]; [lia|].
    inversion Hs' as [|? ? _ Hall]; subst. rewrite Forall_forall in Hall.
    specialize (Hall y Hy). lia.
  - intros y [].
Qed.

Lemma follow_describes (n : nat) :
  forall T cycles cyc cur out,
    extract_state f T cyc cur ->
    follow f n T cycles cyc cur = Ok out ->
    exists new,
      out = cycles ++ new
      /\ describes f (fun x => In x T \/ In x cyc) new.
Proof.
  induction n as [|n IH]; intros T cycles cyc cur out Hst Hrun; [discriminate|].
  simpl in Hrun. destruct (list_remove cur T) as [T'|e] eqn:Hr; [|discriminate].
  simpl in Hrun.
  pose proof (es_inv _ _ _ _ Hst) as Hinv.
  destruct (list_remove_subset _ _ _ Hr) as [Hcur Hsub].
  destruct (list_remove_spec _ _ _ (fi_nodup _ _ _ _ Hinv) Hr) as [HT' Hin].
  destruct (mem (f cur) (cyc ++ [cur])) eqn:Hm.
  - pose proof (follow_inv_close _ _ _ Hinv Hm) as Hclose.
    assert (Hrest : exists new',
               out = (if 1 <? Z.of_nat (List.length (cyc ++ [cur]))
                      then cycles ++ [cyc ++ [cur]] else cycles) ++ new'
               /\ describes f (fun x => In x T') new').
    { destruct T' as [|start T''].
      - injection Hrun as <-. exists []. rewrite app_nil_r. split; [reflexivity|].
        apply describes_nil. intros x [].
      - destruct (IH _ _ _ _ _ (extract_state_restart _ _ _ _ _ Hst Hr Hm) Hrun)
          as [new' [E Hd]].
        exists new'. split; [assumption|].
        apply (describes_iff f _ _ new') with (2 := Hd).
        intros x. split; [intros [H|[]]; exact H | intros H; now left]. }
    destruct Hrest as [new' [E [D1 D2 D3 D4 D5 D6]]].
    rewrite long_iff_nonempty in E. destruct cyc as [|a cyc0].
    + simpl in E. exists new'. split; [assumption|]. constructor; try assumption.
      * intros x Hx. left. apply D1, Hin in Hx. tauto.
      * intros x [Hx|[]] Hout.
        destruct (Z.eq_dec x cur) as [->|Hne]; [exact Hclose|].
        apply D4; [|assumption]. apply Hin. tauto.
    + simpl negb in E. cbv iota in E.
      set (c1 := (a :: cyc0) ++ [cur]) in *.
      assert (Hhd : hd 0 c1 = a) by reflexivity.
      assert (Hc1T : forall x, In x c1 -> ~ In x T').
      { intros x Hx. rewrite Hin. apply in_app_iff in Hx.
        destruct Hx as [Hx|[<-|[]]]; [|tauto].
        intros [HxT _]. now apply (fi_disj _ _ _ _ Hinv x). }
      exists (c1 :: new'). split; [now rewrite E, <- app_assoc|].
      constructor.
      * intros x Hx.
        change (List.concat (c1 :: new')) with (c1 ++ List.concat new') in Hx.
        apply in_app_iff in Hx. destruct Hx as [Hx|Hx].
        -- unfold c1 in Hx. apply in_app_iff in Hx.
           destruct Hx as [Hx|[<-|[]]]; tauto.
        -- left. apply D1, Hin in Hx. tauto.
      * constructor; [|assumption]. unfold c1. rewrite length_app. simpl. lia.
      * intros c [<-|Hc]; [|now apply D3]. split.
        -- apply (es_path _ _ _ _ Hst).
        -- intros pre x Ex. unfold c1 in Ex. apply app_inj_tail in Ex.
           destruct Ex as [_ <-]. rewrite Hhd. exact Hclose.
      * intros x Hx Hout.
        change (List.concat (c1 :: new')) with (c1 ++ List.concat new') in Hout.
        rewrite in_app_iff in Hout.
        apply D4; [|tauto]. apply Hin.
        assert (Hnc : ~ In x c1) by tauto. unfold c1 in Hnc.
        rewrite in_app_iff in Hnc. simpl in Hnc.
        destruct Hx as [Hx|Hx]; [|tauto]. split; [assumption|].
        intros ->. tauto.
      * constructor; [|assumption]. intros x Hx. rewrite Hhd.
        unfold c1 in Hx. apply in_app_iff in Hx.
        destruct Hx as [Hx|[<-|[]]].
        -- now apply (es_head_cyc _ _ _ _ Hst x).
        -- now apply (es_head_T _ _ _ _ Hst cur).
      * simpl. constructor; [assumption|]. rewrite Forall_forall.
        intros h Hh. apply in_map_iff in Hh. destruct Hh as [c [<- Hc]].
        rewrite Forall_forall in D2. pose proof (hd_in c (D2 c Hc)) as Hhc.
        assert (HcT' : In (hd 0 c) T').
        { apply D1. apply in_concat. now exists c. }
        pose proof (proj1 (Hin _) HcT') as [HcT Hne].
        pose proof (es_head_T _ _ _ _ Hst _ HcT) as Hle. simpl in Hle.
        assert (a <> hd 0 c).
        { intros Ea. apply (Hc1T a); [now left | now rewrite Ea]. }
        lia.
  - destruct (IH _ _ _ _ _ (extract_state_next _ _ _ _ Hst Hr Hm) Hrun)
      as [new [E Hd]].
    exists new. split; [assumption|].
    apply (describes_iff f _ _ new) with (2 := Hd).
    intros x. rewrite Hin, in_app_iff. simpl.
    destruct (Z.eq_dec x cur) as [->|Hne]; [tauto|].
    intuition congruence.
Qed.

End Describe.

Lemma valid_extract_state (p : Cycle.t) (start : Z) (rest : list Z) :
  valid p -> range 1 (_dim p + 1) = start :: rest ->
  extract_state (__call__ p) (range 1 (_dim p + 1)) [] start.
Proof.
  intros Hv Hr. constructor.
  - now apply valid_follow_inv with rest.
  - apply range_sorted.
  - intros pre x y post E. apply (f_equal (@List.length Z)) in E.
    rewrite !length_app in E. simpl in E. lia.
  - simpl. intros y Hy. pose proof (range_sorted 1 (_dim p + 1)) as Hs.
    rewrite Hr in Hs, Hy. destruct Hy as [<-|Hy]; [lia|].
    inversion Hs as [|? ? _ Hall]; subst. rewrite Forall_forall in Hall.
    specialize (Hall y Hy). lia.
  - intros y [].
Qed.

Lemma valid_extraction_describes (p : Cycle.t) (cycles : list (list Z)) :
  valid p -> _create_representation p = Ok cycles ->
  describes (__call__ p) (in_universe p) cycles.
Proof.
  intros Hv. unfold _create_representation, extract, get_dimension.
  destruct (range 1 (_dim p + 1)) as [|start T] eqn:Hr.
  - intros [= <-]. apply describes_nil. intros x Hx.
    apply in_universe_range in Hx. rewrite Hr in Hx. destruct Hx.
  - intros Hrun. rewrite <- Hr in Hrun.
    destruct (follow_describes _ _ _ _ _ _ _ (valid_extract_state p start T Hv Hr) Hrun)
      as [new [E Hd]].
    simpl in E. subst new.
    apply (describes_iff _ _ _ cycles) with (2 := Hd).
    intros x. rewrite <- in_universe_range.
    split; [intros [H|[]]; exact H | intros H; now left].
Qed.

Lemma valid_extraction_canonical (p : Cycle.t) (cycles : list (list Z)) :
  valid p -> _create_representation p = Ok cycles ->
  canonical cycles
  /\ (forall c, In c cycles -> follows_cycle (__call__ p) c)
  /\ (forall x, ~ In x (List.concat cycles) -> __call__ p x = x).
Proof.
  intros Hv Hc.
  destruct (valid_extraction_describes p cycles Hv Hc) as [D1 D2 D3 D4 D5 D6].
  assert (Hshape : NoDup (List.concat cycles)).
  { revert Hc. unfold _create_representation, extract, get_dimension.
    destruct (range 1 (_dim p + 1)) as [|start T] eqn:Hr.
    - intros [= <-]. constructor.
    - intros Hrun. rewrite <- Hr in Hrun.
      destruct (follow_shape _ _ _ _ _ _ _
                  (sorted_nodup _ (range_sorted 1 (_dim p + 1)))
                  (NoDup_nil Z) (fun y (H : In y []) => match H with end) Hrun)
        as [new [E [_ [H2 _]]]].
      simpl in E. now subst new. }
  split; [|split].
  - constructor; try assumption.
    intros x Hx. apply D1 in Hx. unfold in_universe in Hx. lia.
  - assumption.
  - intros x Hx.
    assert (Hdec : in_universe p x \/ ~ in_universe p x)
      by (unfold in_universe; lia).
    destruct Hdec as [Hu|Hu]; [now apply D4|].
    now apply call_outside; [apply valid_keys|].
Qed.

(** X18. On a valid permutation the extraction returns its disjoint-cycle
    decomposition in canonical form: disjoint cycles of at least two
    positive points, each written from its smallest point, in ascending
    order of that point; the permutation sends every point of a cycle to
    the next one and the last to the first, and fixes every integer that
    is in no cycle. *)
Theorem extraction_is_the_cycle_decomposition (p : Cycle.t) (cycles : list (list Z)) :
  valid p -> _create_representation p = Ok cycles ->
  canonical cycles
  /\ (forall c, In c cycles -> follows_cycle (__call__ p) c)
  /\ (forall x, ~ In x (List.concat cycles) -> __call__ p x = x).
Proof.
  intros Hv Hc.
  destruct (valid_extraction_canonical p cycles Hv Hc) as [Hcan [Hf Hid]].
  split; [exact Hcan|]. split; [exact Hf | exact Hid].
Qed.

Lemma extraction_is_the_cycle_decomposition_witness :
  canonical [[1; 4; 2]; [3; 5]]
  /\ (forall c, In c [[1; 4; 2]; [3; 5]] ->
                follows_cycle (__call__ (Cycle.mk [(5, 3); (2, 1); (4, 2); (3, 5); (1, 4)] 6)) c)
  /\ (forall x, ~ In x (List.concat [[1; 4; 2]; [3; 5]]) ->
                __call__ (Cycle.mk [(5, 3); (2, 1); (4, 2); (3, 5); (1, 4)] 6) x = x).
Proof.
  apply (extraction_is_the_cycle_decomposition
           (Cycle.mk [(5, 3); (2, 1); (4, 2); (3, 5); (1, 4)] 6)).
  - apply valid_b_sound. reflexivity.
  - reflexivity.
Defined.

(** ** Printing, then parsing *)

Lemma follows_determines (f g : Z -> Z) (c : list Z) (x : Z) :
  follows_cycle f c -> follows_cycle g c -> In x c -> f x = g x.
Proof.
  intros [Hf1 Hf2] [Hg1 Hg2] Hx. apply in_split in Hx.
  destruct Hx as [pre [[|y post] Hc]].
  - now rewrite (Hf2 pre x Hc), (Hg2 pre x Hc).
  - now rewrite (Hf1 pre x y post Hc), (Hg1 pre x y post Hc).
Qed.

Lemma same_cycles_same_call (f g : Z -> Z) (cs : list (list Z)) :
  (forall c, In c cs -> follows_cycle f c) ->
  (forall c, In c cs -> follows_cycle g c) ->
  (forall x, ~ In x (List.concat cs) -> f x = x) ->
  (forall x, ~ In x (List.concat cs) -> g x = x) ->
  forall x, f x = g x.
Proof.
  intros Hf Hg Hidf Hidg x.
  destruct (in_dec Z.eq_dec x (List.concat cs)) as [Hx|Hx].
  - apply in_concat in Hx. destruct Hx as [c [Hc Hxc]].
    apply (follows_determines f g c x); auto.
  - now rewrite (Hidf x Hx), (Hidg x Hx).
Qed.

Lemma concat_nodup_each (cs : list (list Z)) :
  NoDup (List.concat cs) -> Forall (fun c => NoDup c) cs.
Proof.
  induction cs as [|c cs IH]; simpl; intros H; constructor.
  - apply nodup_app_inv in H. tauto.
  - apply IH. apply nodup_app_inv in H. tauto.
Qed.

Lemma identity_1_valid : valid (Cycle.mk [] 1).
Proof. apply valid_b_sound. reflexivity. Qed.

Lemma reparse_canonical (p : Cycle.t) (cycles : list (list Z)) :
  canonical cycles ->
  (forall c, In c cycles -> follows_cycle (__call__ p) c) ->
  (forall x, ~ In x (List.concat cycles) -> __call__ p x = x) ->
  exists q,
    Cycle (_prettify cycles) = Ok q
    /\ (forall x, __call__ q x = __call__ p x)
    /\ __repr__ q = Ok (_prettify cycles)
    /\ valid q.
Proof.
  intros Hcan Hf Hid. destruct cycles as [|c cs].
  - exists (Cycle.mk [] 1). split; [reflexivity|]. split; [|split].
    + intros x. now rewrite (Hid x (fun H => H)).
    + reflexivity.
    + apply identity_1_valid.
  - pose proof (canonical_nonempty _ (canon_long _ Hcan)) as Hne.
    destruct (nested_product_ok _ Hne) as [q Hq].
    destruct (nested_product_call _ q (canon_nodup _ Hcan) (canon_pos _ Hcan) Hne Hq)
      as [Hfq [Hidq _]].
    exists q. split; [now rewrite (parse_rendered c cs Hne)|]. split; [|split].
    + now apply (same_cycles_same_call _ _ (c :: cs)).
    + unfold __repr__. now rewrite (canonical_extraction _ q Hcan Hq).
    + apply (nested_product_valid (c :: cs)); [|apply (canon_pos _ Hcan) | assumption].
      apply concat_nodup_each, (canon_nodup _ Hcan).
Qed.

(** X19. For a valid permutation [p], the text [__repr__] returns parses
    to a valid permutation that acts as [p] on every integer and that is
    printed as the same text. *)
Theorem parse_of_repr (p : Cycle.t) :
  valid p ->
  exists s q,
    __repr__ p = Ok s
    /\ Cycle s = Ok q
    /\ (forall x, __call__ q x = __call__ p x)
    /\ __repr__ q = Ok s
    /\ valid q.
Proof.
  intros Hv. destruct (valid_extraction p Hv) as [cycles Hc].
  destruct (valid_extraction_canonical p cycles Hv Hc) as [Hcan [Hf Hid]].
  destruct (reparse_canonical p cycles Hcan Hf Hid) as [q [H1 [H2 [H3 H4]]]].
  exists (_prettify cycles), q. unfold __repr__ at 1. rewrite Hc. simpl.
  split; [reflexivity|]. split; [assumption|]. split; [assumption|].
  split; assumption.
Qed.

Lemma parse_of_repr_witness :
  exists s q,
    __repr__ (Cycle.mk [(5, 3); (2, 1); (4, 2); (3, 5); (1, 4)] 6) = Ok s
    /\ Cycle s = Ok q
    /\ (forall x, __call__ q x
                  = __call__ (Cycle.mk [(5, 3); (2, 1); (4, 2); (3, 5); (1, 4)] 6) x)
    /\ __repr__ q = Ok s
    /\ valid q.
Proof.
  apply (parse_of_repr (Cycle.mk [(5, 3); (2, 1); (4, 2); (3, 5); (1, 4)] 6)).
  apply valid_b_sound. reflexivity.
Defined.

(** ** The transpositions of [decompose] multiply back to the permutation *)

Lemma follows_cycle_ext (f g : Z -> Z) (c : list Z) :
  (forall x, f x = g x) -> follows_cycle f c -> follows_cycle g c.
Proof.
  intros E [H1 H2]. split.
  - intros pre x y post Hc. rewrite <- E. now apply H1 with pre post.
  - intros pre x Hc. rewrite <- E. now apply H2 with pre.
Qed.

Lemma follows_compose_outer (f g : Z -> Z) (c : list Z) :
  follows_cycle f c -> (forall x, In x c -> g x = x) ->
  follows_cycle (fun x => f (g x)) c.
Proof.
  intros [H1 H2] Hg. split.
  - intros pre x y post Hc. rewrite Hg; [now apply H1 with pre post|].
    rewrite Hc. apply in_app_iff. right. now left.
  - intros pre x Hc. rewrite Hg; [now apply H2 with pre|].
    rewrite Hc. apply in_app_iff. right. now left.
Qed.

Lemma follows_compose_inner (f g : Z -> Z) (c : list Z) :
  follows_cycle g c -> (forall x, In x c -> f x = x) ->
  follows_cycle (fun x => f (g x)) c.
Proof.
  intros Hg Hf.
  assert (E : forall x, In x c -> f (g x) = g x)
    by (intros x Hx; apply Hf; now apply follows_cycle_in).
  destruct Hg as [H1 H2]. split.
  - intros pre x y post Hc. rewrite E; [now apply H1 with pre post|].
    rewrite Hc. apply in_app_iff. right. now left.
  - intros pre x Hc. rewrite E; [now apply H2 with pre|].
    rewrite Hc. apply in_app_iff. right. now left.
Qed.

Lemma cycle_fun_fixed (c : list Z) (x : Z) : ~ In x c -> cycle_fun c x = x.
Proof.
  intros Hx. unfold cycle_fun.
  destruct (generate_single_cycle c) as [g|e] eqn:Hg; [|reflexivity].
  rewrite call_get. destruct (get x (_map g)) as [v|] eqn:Hv; [|reflexivity].
  destruct (single_cycle_entries c g x v Hg Hv) as [H _]. now destruct (Hx H).
Qed.

Lemma apply_all_fixed (cs : list (list Z)) (x : Z) :
  ~ In x (List.concat cs) -> apply_all cs x = x.
Proof.
  induction cs as [|c cs IH]; simpl; intros Hx; [reflexivity|].
  rewrite in_app_iff in Hx. rewrite IH by tauto. apply cycle_fun_fixed. tauto.
Qed.

Lemma apply_all_app (l1 l2 : list (list Z)) (x : Z) :
  apply_all (l1 ++ l2) x = apply_all l1 (apply_all l2 x).
Proof. unfold apply_all. now rewrite fold_right_app. Qed.

Lemma nested_product_cons (c c2 : list Z) (cs : list (list Z)) (p : Cycle.t) :
  nested_product (c :: c2 :: cs) = Ok p ->
  exists g q, generate_single_cycle c = Ok g
              /\ nested_product (c2 :: cs) = Ok q /\ p = __mul__ g q.
Proof.
  intros Hp. simpl in Hp. simpl.
  destruct (generate_single_cycle c) as [g|e]; simpl in Hp; [|discriminate].
  destruct (match cs with [] => _ | _ => _ end) as [q|e]; simpl in Hp;
    [|discriminate].
  exists g, q. repeat split. congruence.
Qed.

Lemma single_cycle_keys (c : list Z) (g : Cycle.t) :
  (forall x, In x c -> 1 <= x) -> generate_single_cycle c = Ok g ->
  keys_in_universe g.
Proof.
  intros Hpos Hg k v H. destruct (single_cycle_entries c g k v Hg H) as [Hk _].
  split; [now apply Hpos|]. now apply (single_cycle_dim_max c g Hg).
Qed.

Lemma nested_product_keys (cs : list (list Z)) :
  forall p,
    (forall x, In x (List.concat cs) -> 1 <= x) ->
    nested_product cs = Ok p -> keys_in_universe p.
Proof.
  destruct cs as [|c [|c2 cs]]; intros p Hpos Hp.
  - injection Hp as <-. intros k v H. discriminate H.
  - apply (single_cycle_keys c); [|exact Hp].
    intros x Hx. apply Hpos. simpl. rewrite app_nil_r. exact Hx.
  - destruct (nested_product_cons _ _ _ _ Hp) as [g [q [_ [_ ->]]]]. apply mul_keys.
Qed.

Lemma nested_product_apply (cs : list (list Z)) :
  forall p,
    (forall x, In x (List.concat cs) -> 1 <= x) ->
    nested_product cs = Ok p ->
    forall x, __call__ p x = apply_all cs x.
Proof.
  induction cs as [|c cs IH]; intros p Hpos Hp x.
  - injection Hp as <-. reflexivity.
  - assert (Hposc : forall y, In y c -> 1 <= y).
    { intros y Hy. apply Hpos. simpl. apply in_app_iff. now left. }
    assert (Hposcs : forall y, In y (List.concat cs) -> 1 <= y).
    { intros y Hy. apply Hpos. simpl. apply in_app_iff. now right. }
    destruct cs as [|c2 cs].
    + simpl. unfold cycle_fun. simpl in Hp. now rewrite Hp.
    + destruct (nested_product_cons _ _ _ _ Hp) as [g [q [Hg [Hq ->]]]].
      rewrite call_mul_all.
      * rewrite (IH q Hposcs Hq).
        change (apply_all (c :: c2 :: cs) x)
          with (cycle_fun c (apply_all (c2 :: cs) x)).
        unfold cycle_fun at 1. now rewrite Hg.
      * now apply (single_cycle_keys c).
      * now apply (nested_product_keys (c2 :: cs)).
Qed.

Lemma transposition_swaps (c0 m : Z) :
  c0 <> m ->
  cycle_fun [c0; m] c0 = m /\ cycle_fun [c0; m] m = c0.
Proof.
  intros Hne.
  destruct (single_cycle_ok [c0; m]) as [g Hg]; [discriminate|].
  assert (Hnd : NoDup [c0; m]).
  { repeat constructor; simpl; [intuition congruence | tauto]. }
  destruct (single_cycle_call _ g Hnd Hg) as [[H1 H2] _].
  unfold cycle_fun. rewrite Hg. split.
  - apply (H1 [] c0 m []). reflexivity.
  - apply (H2 [c0] m). reflexivity.
Qed.

Lemma anchored_snoc (c0 m : Z) (r : list Z) :
  anchored_transpositions (c0 :: r ++ [m])
  = [c0; m] :: anchored_transpositions (c0 :: r).
Proof. simpl. now rewrite rev_app_distr. Qed.

Lemma anchored_elements (k : list Z) (x : Z) :
  In x (List.concat (anchored_transpositions k)) -> In x k.
Proof.
  destruct k as [|c0 rest]; [intros []|].
  simpl. intros H. apply in_concat in H. destruct H as [t [Ht Hx]].
  apply in_map_iff in Ht. destruct Ht as [y [<- Hy]].
  apply in_rev in Hy. destruct Hx as [<-|[<-|[]]]; [now left | now right].
Qed.

Lemma transpositions_follow (c0 : Z) (rest : list Z) :
  NoDup (c0 :: rest) ->
  follows_cycle (apply_all (anchored_transpositions (c0 :: rest))) (c0 :: rest).
Proof.
  induction rest as [|m r IH] using rev_ind; intros Hnd.
  - split.
    + intros pre x y post E. apply (f_equal (@List.length Z)) in E.
      rewrite length_app in E. simpl in E. lia.
    + intros pre x E. destruct pre as [|h pre].
      * injection E as <-. reflexivity.
      * apply (f_equal (@List.length Z)) in E. simpl in E.
        rewrite length_app in E. simpl in E. lia.
  - assert (Hnd' : NoDup (c0 :: r) /\ ~ In m (c0 :: r)).
    { change (c0 :: r ++ [m]) with ((c0 :: r) ++ [m]) in Hnd.
      apply nodup_app_inv in Hnd. destruct Hnd as [H1 [_ H3]].
      split; [assumption|]. intros Hm. apply (H3 m Hm). now left. }
    destruct Hnd' as [Hndr Hm].
    specialize (IH Hndr). destruct IH as [IH1 IH2].
    assert (Hc0m : c0 <> m) by (intros ->; apply Hm; now left).
    destruct (transposition_swaps c0 m Hc0m) as [Tc0 Tm].
    rewrite anchored_snoc.
    change (apply_all ([c0; m] :: ?l)) with (fun x => cycle_fun [c0; m] (apply_all l x)).
    split.
    + intros pre x y post E.
      change (c0 :: r ++ [m]) with ((c0 :: r) ++ [m]) in E.
      destruct post as [|z post].
      * change (pre ++ [x; y]) with (pre ++ [x] ++ [y]) in E.
        rewrite app_assoc in E. apply app_inj_tail in E. destruct E as [E <-].
        rewrite (IH2 pre x E). exact Tc0.
      * destruct (exists_last (l := z :: post)) as [body [l Hl]]; [discriminate|].
        rewrite Hl in E.
        change (pre ++ x :: y :: body ++ [l]) with (pre ++ (x :: y :: body) ++ [l]) in E.
        rewrite app_assoc in E. apply app_inj_tail in E. destruct E as [E _].
        rewrite (IH1 pre x y body E).
        apply cycle_fun_fixed. intros [Ey|[Ey|[]]].
        -- subst y. inversion Hndr as [|? ? Hc0 _]; subst.
           destruct pre as [|h pre]; simpl in E; injection E as _ E.
           ++ apply Hc0. rewrite E. now left.
           ++ apply Hc0. rewrite E. apply in_app_iff. right. right. now left.
        -- subst y. apply Hm. rewrite E. apply in_app_iff. right. right. now left.
    + intros pre x E.
      change (c0 :: r ++ [m]) with ((c0 :: r) ++ [m]) in E.
      apply app_inj_tail in E. destruct E as [_ <-].
      rewrite apply_all_fixed; [exact Tm|].
      intros H. apply Hm. now apply anchored_elements.
Qed.

Lemma transpositions_all (ks : list (list Z)) :
  NoDup (List.concat ks) ->
  (forall k, In k ks ->
             follows_cycle (apply_all (flat_map anchored_transpositions ks)) k)
  /\ (forall x, ~ In x (List.concat ks) ->
                apply_all (flat_map anchored_transpositions ks) x = x).
Proof.
  induction ks as [|k ks IH]; intros Hnd.
  - split; [intros k [] | reflexivity].
  - simpl in Hnd. apply nodup_app_inv in Hnd. destruct Hnd as [Hk [Hks Hdisj]].
    destruct (IH Hks) as [IH1 IH2].
    assert (Hblock : forall x, ~ In x k ->
                               apply_all (anchored_transpositions k) x = x).
    { intros x Hx. apply apply_all_fixed. intros H. apply Hx.
      now apply anchored_elements. }
    split.
    + intros k' Hk'.
      apply (follows_cycle_ext
               (fun x => apply_all (anchored_transpositions k)
                           (apply_all (flat_map anchored_transpositions ks) x))).
      { intros x. simpl. now rewrite apply_all_app. }
      destruct Hk' as [<-|Hk'].
      * apply follows_compose_outer.
        -- destruct k as [|c0 rest].
           ++ split; intros pre x; intros; now destruct pre.
           ++ now apply transpositions_follow.
        -- intros x Hx. apply IH2. now apply Hdisj.
      * apply follows_compose_inner; [now apply IH1|].
        intros x Hx. apply Hblock. intros Hxk. apply (Hdisj x Hxk).
        apply in_concat. now exists k'.
    + intros x Hx. simpl in Hx. rewrite in_app_iff in Hx.
      simpl. rewrite apply_all_app, IH2 by tauto. apply Hblock. tauto.
Qed.

Lemma decompose_anchored (p : Cycle.t) (cycles : list (list Z)) :
  _create_representation p = Ok cycles ->
  decompose p = Ok (_prettify (flat_map anchored_transpositions cycles)).
Proof.
  intros Hc. unfold decompose. rewrite Hc. simpl.
  rewrite fold_left_app_flat_map. simpl. do 2 f_equal.
  clear. induction cycles as [|c cycles IH]; simpl; [reflexivity|].
  now rewrite IH, transpositions_anchored.
Qed.

Lemma anchored_nonempty (ks : list (list Z)) :
  Forall (fun t => t <> []) (flat_map anchored_transpositions ks).
Proof.
  rewrite Forall_forall. intros t Ht. apply in_flat_map in Ht.
  destruct Ht as [k [_ Ht]]. destruct k as [|c0 rest]; [destruct Ht|].
  simpl in Ht. apply in_map_iff in Ht. destruct Ht as [y [<- _]]. discriminate.
Qed.

(** X20. For a valid permutation [p], the text [decompose] returns parses
    to a permutation that acts as [p] on every integer: the product of
    the transpositions, in the order the parser multiplies them, is [p]. *)
Theorem parse_of_decompose (p : Cycle.t) :
  valid p ->
  exists s q,
    decompose p = Ok s
    /\ Cycle s = Ok q
    /\ forall x, __call__ q x = __call__ p x.
Proof.
  intros Hv. destruct (valid_extraction p Hv) as [cycles Hc].
  destruct (valid_extraction_canonical p cycles Hv Hc) as [Hcan [Hf Hid]].
  exists (_prettify (flat_map anchored_transpositions cycles)).
  destruct (flat_map anchored_transpositions cycles) as [|t ts] eqn:Ht.
  - exists (Cycle.mk [] 1). split; [rewrite <- Ht; now apply decompose_anchored|].
    split; [reflexivity|].
    destruct (transpositions_all cycles (canon_nodup _ Hcan)) as [H1 H2].
    rewrite Ht in H1, H2. intros x. symmetry.
    apply (same_cycles_same_call _ (fun y => y) cycles); auto.
  - pose proof (anchored_nonempty cycles) as Hne. rewrite Ht in Hne.
    destruct (nested_product_ok _ Hne) as [q Hq].
    exists q. split; [rewrite <- Ht; now apply decompose_anchored|].
    split; [now rewrite (parse_rendered t ts Hne)|].
    assert (Hpos : forall x, In x (List.concat (t :: ts)) -> 1 <= x).
    { intros x Hx. rewrite <- Ht in Hx. apply (canon_pos _ Hcan).
      apply in_concat in Hx. destruct Hx as [t' [Ht' Hx]].
      apply in_flat_map in Ht'. destruct Ht' as [k [Hk Ht']].
      apply in_concat. exists k. split; [assumption|].
      apply anchored_elements. apply in_concat. now exists t'. }
    destruct (transpositions_all cycles (canon_nodup _ Hcan)) as [H1 H2].
    rewrite Ht in H1, H2. intros x.
    rewrite (nested_product_apply _ q Hpos Hq).
    apply (same_cycles_same_call _ _ cycles); auto.
Qed.

Lemma parse_of_decompose_witness :
  exists s q,
    decompose (Cycle.mk [(5, 3); (2, 1); (4, 2); (3, 5); (1, 4)] 6) = Ok s
    /\ Cycle s = Ok q
    /\ forall x, __call__ q x
                 = __call__ (Cycle.mk [(5, 3); (2, 1); (4, 2); (3, 5); (1, 4)] 6) x.
Proof.
  apply (parse_of_decompose (Cycle.mk [(5, 3); (2, 1); (4, 2); (3, 5); (1, 4)] 6)).
  apply valid_b_sound. reflexivity.
Defined.

(** ** Disjoint permutations, and the inverse of a product *)

(** X21. Two valid permutations that move no common point commute: the
    two products are the same stored value. *)
Theorem disjoint_commute (a b : Cycle.t) :
  valid a -> valid b ->
  (forall x, __call__ a x = x \/ __call__ b x = x) ->
  __mul__ a b = __mul__ b a.
Proof.
  intros Ha Hb Hdis.
  assert (Hmoved : forall (p q : Cycle.t), valid p ->
             (forall x, __call__ p x = x \/ __call__ q x = x) ->
             forall x, __call__ q x = x -> __call__ q (__call__ p x) = __call__ p x).
  { intros p q Hp Hpq x Hqx.
    destruct (Z.eq_dec (__call__ p x) x) as [E|Hne]; [now rewrite E|].
    destruct (Hpq (__call__ p x)) as [H|H]; [|exact H].
    destruct Hne. now apply (valid_injective p _ _ Hp). }
  apply mul_ext; [lia|]. intros x _.
  destruct (Hdis x) as [Hx|Hx].
  - rewrite Hx. apply (Hmoved b a Hb); [|exact Hx].
    intros y. destruct (Hdis y); tauto.
  - rewrite Hx. symmetry. now apply (Hmoved a b Ha).
Qed.

Lemma disjoint_commute_witness :
  __mul__ (Cycle.mk [(1, 2); (2, 1)] 2) (Cycle.mk [(3, 4); (4, 3)] 4)
  = __mul__ (Cycle.mk [(3, 4); (4, 3)] 4) (Cycle.mk [(1, 2); (2, 1)] 2).
Proof.
  apply disjoint_commute.
  - apply valid_b_sound. reflexivity.
  - apply valid_b_sound. reflexivity.
  - intros x. rewrite !call_get. simpl.
    destruct (Z.eqb_spec x 1) as [->|H1]; [now right|].
    destruct (Z.eqb_spec x 2) as [->|H2]; [now right | now left].
Defined.

(** X22. For valid permutations the inverse of a product is the product
    of the inverses in the opposite order: the two have the same
    dimension, act alike on every integer and are printed alike. *)
Theorem inverse_of_product (a b : Cycle.t) :
  valid a -> valid b ->
  get_dimension (inverse (__mul__ a b)) = get_dimension (__mul__ (inverse b) (inverse a))
  /\ (forall x, __call__ (inverse (__mul__ a b)) x
                = __call__ (__mul__ (inverse b) (inverse a)) x)
  /\ __repr__ (inverse (__mul__ a b)) = __repr__ (__mul__ (inverse b) (inverse a)).
Proof.
  intros Ha Hb.
  pose proof (mul_valid a b Ha Hb) as Hab.
  assert (Hd : _dim (inverse (__mul__ a b)) = _dim (__mul__ (inverse b) (inverse a))).
  { unfold inverse, __mul__, get_dimension. simpl. lia. }
  assert (Hcall : forall x, __call__ (inverse (__mul__ a b)) x
                            = __call__ (__mul__ (inverse b) (inverse a)) x).
  { intros x.
    rewrite <- (call_inverse_right_all (__mul__ a b) x Hab) at 2.
    rewrite (call_mul_all (inverse b) (inverse a))
      by (apply inverse_keys; assumption).
    rewrite (call_mul_all a b) by (apply valid_keys; assumption).
    now rewrite (call_inverse_left a), (call_inverse_left b). }
  split; [exact Hd|]. split; [exact Hcall|].
  unfold __repr__. rewrite (create_representation_ext _ _ Hd); [reflexivity|].
  intros x _. apply Hcall.
Qed.

Lemma inverse_of_product_witness :
  get_dimension (inverse (__mul__ (Cycle.mk [(1, 2); (2, 3); (3, 1)] 3)
                                  (Cycle.mk [(2, 4); (4, 2)] 4)))
  = get_dimension (__mul__ (inverse (Cycle.mk [(2, 4); (4, 2)] 4))
                           (inverse (Cycle.mk [(1, 2); (2, 3); (3, 1)] 3)))
  /\ (forall x, __call__ (inverse (__mul__ (Cycle.mk [(1, 2); (2, 3); (3, 1)] 3)
                                           (Cycle.mk [(2, 4); (4, 2)] 4))) x
                = __call__ (__mul__ (inverse (Cycle.mk [(2, 4); (4, 2)] 4))
                                    (inverse (Cycle.mk [(1, 2); (2, 3); (3, 1)] 3))) x)
  /\ __repr__ (inverse (__mul__ (Cycle.mk [(1, 2); (2, 3); (3, 1)] 3)
                                (Cycle.mk [(2, 4); (4, 2)] 4)))
     = __repr__ (__mul__ (inverse (Cycle.mk [(2, 4); (4, 2)] 4))
                         (inverse (Cycle.mk [(1, 2); (2, 3); (3, 1)] 3))).
Proof.
  apply inverse_of_product; apply valid_b_sound; reflexivity.
Defined.
